(** * df-network: a shallow embedding of the networking core

    The development follows the JavaScript sources under [src/dist] and
    [src/unnamed]:

    - [ThrottledConcurrentQueue.js]: the rate- and concurrency-limited queue;
    - [ContractCaller.js]: the retrying read-call dispatcher;
    - [TxExecutor.js]: the serialized transaction executor;
    - [EthConnection.js], [Network.js]: the connection manager and helpers;
    - [xDaiApi.js] ([src/unnamed/part_000]): the gas price oracle client.

    Asynchronous code is modelled by explicit state passing.  What the
    environment decides (clock readings, the outcome of a network call, the
    order in which promises settle) is an explicit argument of the model, so
    that a statement "for every execution" is a statement for every value of
    those arguments. *)

From stdpp Require Import gmap strings.
From Stdlib Require Import String Ascii ZArith QArith Lqa Lia Bool List.
Import ListNotations.
Close Scope Q_scope.
Open Scope Z_scope.

(** ** JavaScript values shared by the modules *)

(** [x && ...] and [!x] on a number that is never [NaN]: zero is falsy. *)
Definition truthy (x : Z) : bool := negb (x =? 0).

(** [Array.prototype.pop]: removes and returns the last element. *)
Fixpoint pop {A : Type} (l : list A) : option (A * list A) :=
  match l with
  | [] => None
  | [x] => Some (x, [])
  | x :: rest =>
      match pop rest with
      | Some (y, rest') => Some (y, x :: rest')
      | None => None
      end
  end.

(** A JavaScript number used as a limit: an integer or [Infinity]. *)
Inductive Limit : Type :=
| Finite (n : Z)
| Infinity.

Definition limit_le0 (l : Limit) : bool :=
  match l with Finite n => n <=? 0 | Infinity => false end.

Definition limit_sub (l : Limit) (c : Z) : Limit :=
  match l with Finite n => Finite (n - c) | Infinity => Infinity end.

Definition limit_is0 (l : Limit) : bool :=
  match l with Finite n => n =? 0 | Infinity => false end.

(** [Math.min(a, l, b)] for two integers and a limit. *)
Definition min3 (a : Z) (l : Limit) (b : Z) : Z :=
  match l with
  | Finite n => Z.min a (Z.min n b)
  | Infinity => Z.min a b
  end.

(** ** mnemonist's CircularBuffer, as the queue uses it

    The library is a dependency of the repository; the operations below are
    the ones [ThrottledConcurrentQueue.js] calls.  [push] on a full buffer
    overwrites the oldest entry. *)
Module CircularBuffer.

Record t : Type := mk { capacity : Z; items : list Z }.

Definition create (cap : Z) : t := mk cap [].

Definition size (b : t) : Z := Z.of_nat (length (items b)).

Definition peekFirst (b : t) : option Z := head (items b).

Definition shift (b : t) : t := mk (capacity b) (tail (items b)).

Definition push (b : t) (x : Z) : t :=
  if size b =? capacity b
  then mk (capacity b) (tail (items b) ++ [x])
  else mk (capacity b) (items b ++ [x]).

End CircularBuffer.

(** ** ThrottledConcurrentQueue.js *)
Module ThrottledConcurrentQueue.

(** A task is identified by a number; what its [start] function does is
    decided by the environment and shows up as a [Complete] event. *)
Definition Task : Type := nat.

(** The fields of the JavaScript object. [executionTimeout] holds the
    handle of the timer most recently installed by [executeNextTasks]. *)
Record Queue : Type := mkQueue {
  taskQueue : list Task;
  concurrency : Z;
  invocationIntervalMs : Z;
  maxConcurrency : Limit;
  executionTimestamps : CircularBuffer.t;
  executionTimeout : option nat;
}.

(** The queue together with what surrounds it: the clock behind
    [Date.now()], the timers pending in the event loop, and a log of every
    task start (a ghost field, written where [next] records the timestamp).
    Two fields hold what the environment decides during the current run of
    [executeNextTasks]: [readings] are the amounts by which the clock
    advances at the coming calls of [Date.now()] (the clock never runs
    backwards), and [spawns] are the tasks that the [start] functions of
    the coming tasks add to this queue while they are called. *)
Record World : Type := mkWorld {
  queue : Queue;
  clock : Z;
  readings : list nat;
  spawns : list (list Task);
  timers : list (nat * Z);
  nextTimer : nat;
  started : list (Task * Z);
}.

Inductive Error : Type :=
| MustAllowOneInvocation
| IntervalMustBePositive
| ConcurrencyMustBePositive.

(** [constructor]. *)
Definition new (maxInvocationsPerIntervalMs invocationIntervalMs : Z)
           (maxConcurrency : Limit) : Error + Queue :=
  if maxInvocationsPerIntervalMs <=? 0 then inl MustAllowOneInvocation
  else if invocationIntervalMs <=? 0 then inl IntervalMustBePositive
  else if limit_le0 maxConcurrency then inl ConcurrencyMustBePositive
  else inr (mkQueue [] 0 invocationIntervalMs maxConcurrency
              (CircularBuffer.create maxInvocationsPerIntervalMs) None).

Definition boot (q : Queue) (t0 : Z) : World := mkWorld q t0 [] [] [] 0 [].

Definition set_queue (w : World) (q : Queue) : World :=
  mkWorld q (clock w) (readings w) (spawns w) (timers w) (nextTimer w)
    (started w).

Definition set_taskQueue (q : Queue) (l : list Task) : Queue :=
  mkQueue l (concurrency q) (invocationIntervalMs q) (maxConcurrency q)
    (executionTimestamps q) (executionTimeout q).

Definition set_concurrency (q : Queue) (c : Z) : Queue :=
  mkQueue (taskQueue q) c (invocationIntervalMs q) (maxConcurrency q)
    (executionTimestamps q) (executionTimeout q).

Definition set_timestamps (q : Queue) (b : CircularBuffer.t) : Queue :=
  mkQueue (taskQueue q) (concurrency q) (invocationIntervalMs q)
    (maxConcurrency q) b (executionTimeout q).

(** [Date.now()]. *)
Definition dateNow (w : World) : Z * World :=
  match readings w with
  | [] => (clock w, w)
  | d :: ds =>
      let c := clock w + Z.of_nat d in
      (c, mkWorld (queue w) c ds (spawns w) (timers w) (nextTimer w)
            (started w))
  end.

(** [add]: the task goes to the front of the array.  The zero-delay timer
    it installs is a later [Tick] of the trace. *)
Definition add (start : Task) (w : World) : World :=
  set_queue w (set_taskQueue (queue w) (start :: taskQueue (queue w))).

Definition size (q : Queue) : Z := Z.of_nat (length (taskQueue q)).

Definition concurrencyQuotaRemaining (q : Queue) : Limit :=
  limit_sub (maxConcurrency q) (concurrency q).

Definition throttleQuotaRemaining (q : Queue) : Z :=
  CircularBuffer.capacity (executionTimestamps q)
  - CircularBuffer.size (executionTimestamps q).

(** The loop of [deleteOutdatedExecutionTimestamps]: shift while the oldest
    timestamp is truthy and older than [now - interval]. *)
Fixpoint dropOutdated (now interval : Z) (ts : list Z) : list Z :=
  match ts with
  | [] => []
  | oldest :: rest =>
      if truthy oldest && (oldest <? now - interval)
      then dropOutdated now interval rest
      else ts
  end.

Definition deleteOutdatedExecutionTimestamps (w : World) : World :=
  let (now, w1) := dateNow w in
  let q := queue w1 in
  let b := executionTimestamps q in
  set_queue w1
    (set_timestamps q
       (CircularBuffer.mk (CircularBuffer.capacity b)
          (dropOutdated now (invocationIntervalMs q) (CircularBuffer.items b)))).

(** [task.start()] is called inside [next]; it may call [add]. *)
Definition callStart (w : World) : World :=
  match spawns w with
  | [] => w
  | added :: later =>
      fold_left (fun w' t => add t w') added
        (mkWorld (queue w) (clock w) (readings w) later (timers w)
           (nextTimer w) (started w))
  end.

(** [next], up to its first [await]: pop a task, record the timestamp,
    count it as running and call its [start]. *)
Definition next (w : World) : World :=
  match pop (taskQueue (queue w)) with
  | None => w
  | Some (task, rest) =>
      let (now, w1) := dateNow (set_queue w (set_taskQueue (queue w) rest)) in
      let q1 := queue w1 in
      let q2 :=
        set_concurrency
          (set_timestamps q1 (CircularBuffer.push (executionTimestamps q1) now))
          (concurrency q1 + 1) in
      callStart
        (mkWorld q2 (clock w1) (readings w1) (spawns w1) (timers w1)
           (nextTimer w1) (started w1 ++ [(task, now)]))
  end.

(** [next], after the [await]: the task settled (resolved or rejected). *)
Definition settle (w : World) : World :=
  let q := queue w in
  if 0 <? concurrency q
  then set_queue w (set_concurrency q (concurrency q - 1))
  else w.

(** [nextPossibleExecution]; [None] is [undefined]. *)
Definition nextPossibleExecution (w : World) : option Z * World :=
  let q := queue w in
  match CircularBuffer.peekFirst (executionTimestamps q) with
  | None => (None, w)
  | Some oldestExecution =>
      if negb (truthy oldestExecution)
         || limit_is0 (concurrencyQuotaRemaining q)
      then (None, w)
      else
        let (now, w1) := dateNow w in
        (Some (now - oldestExecution + invocationIntervalMs q), w1)
  end.

Definition clearTimeout (h : nat) (ts : list (nat * Z)) : list (nat * Z) :=
  List.filter (fun t => negb (Nat.eqb (fst t) h)) ts.

(** The tail of [executeNextTasks]: install the wake-up timer. *)
Definition scheduleWake (w : World) : World :=
  let (npe, w1) := nextPossibleExecution w in
  let q := queue w1 in
  match npe with
  | Some delay =>
      if (0 <? size q) && truthy delay
      then
        let pending :=
          match executionTimeout q with
          | Some h => clearTimeout h (timers w1)
          | None => timers w1
          end in
        let h := nextTimer w1 in
        mkWorld
          (mkQueue (taskQueue q) (concurrency q) (invocationIntervalMs q)
             (maxConcurrency q) (executionTimestamps q) (Some h))
          (clock w1) (readings w1) (spawns w1) (pending ++ [(h, delay)])
          (S h) (started w1)
      else w1
  | None => w1
  end.

Definition tasksToExecute (q : Queue) : Z :=
  min3 (throttleQuotaRemaining q) (concurrencyQuotaRemaining q) (size q).

(** [executeNextTasks]. *)
Definition executeNextTasks (w : World) : World :=
  let w1 := deleteOutdatedExecutionTimestamps w in
  let n := Z.to_nat (tasksToExecute (queue w1)) in
  let w2 := Nat.iter n next w1 in
  scheduleWake w2.

(** What can happen to a queue: a caller adds a task; the event loop runs
    [executeNextTasks] (from the timer of an [add] or after a completion),
    during which the clock advances by [ds] at the successive readings and
    the started tasks add [sp]; a running task settles; the pending
    wake-up timer [h] fires. *)
Inductive Event : Type :=
| Add (start : Task)
| Tick (ds : list nat) (sp : list (list Task))
| Complete
| Fire (h : nat) (ds : list nat) (sp : list (list Task)).

Definition step (w : World) (e : Event) : World :=
  match e with
  | Add start => add start w
  | Tick ds sp =>
      executeNextTasks
        (mkWorld (queue w) (clock w) ds sp (timers w) (nextTimer w)
           (started w))
  | Complete => settle w
  | Fire h ds sp =>
      if existsb (fun t => Nat.eqb (fst t) h) (timers w)
      then executeNextTasks
             (mkWorld (queue w) (clock w) ds sp (clearTimeout h (timers w))
                (nextTimer w) (started w))
      else w
  end.

Definition run (w : World) (trace : list Event) : World :=
  fold_left step trace w.

(** Number of task starts with a timestamp in the closed window
    [[a, b]]. *)
Definition startsIn (a b : Z) (log : list (Task * Z)) : nat :=
  length (List.filter (fun s => (a <=? snd s) && (snd s <=? b)) log).

(** The invariant behind the rate bound, for a queue of capacity [R] and
    interval [W]: the log of starts is the pruned timestamps followed by
    the ring, every pruned timestamp is older than the interval, the ring
    is not over capacity and no window of the log holds more than [R]
    starts. *)
Record Inv (R W : Z) (w : World) : Prop := mkInv {
  inv_cap : CircularBuffer.capacity (executionTimestamps (queue w)) = R;
  inv_int : invocationIntervalMs (queue w) = W;
  inv_split : exists gone,
      List.map snd (started w)
      = gone ++ CircularBuffer.items (executionTimestamps (queue w))
      /\ Forall (fun t => t < clock w - W) gone;
  inv_past : Forall (fun s => snd s <= clock w) (started w);
  inv_size : CircularBuffer.size (executionTimestamps (queue w)) <= R;
  inv_rate : forall a, Z.of_nat (startsIn a (a + W) (started w)) <= R;
}.

(** The delay after which the oldest timestamp leaves the interval: the
    "soonest possible time from now" of the comment on
    [nextPossibleExecution]. *)
Definition soonestFromNow (oldest interval now : Z) : Z :=
  (oldest + interval) - now.

End ThrottledConcurrentQueue.

(** ** JavaScript numbers

    A Number is [NaN], an infinity, or a finite value, given by the rational
    [q] it denotes.  [JSON.parse] never produces [NaN], so parsed numbers
    have type [Real]. *)
Inductive Real : Type :=
| NegInf
| Rat (q : Q)
| PosInf.

Inductive Number : Type :=
| NaN
| Rl (r : Real).

Definition num (q : Q) : Number := Rl (Rat q).

Definition real_leb (a b : Real) : bool :=
  match a, b with
  | NegInf, _ => true
  | _, PosInf => true
  | Rat x, Rat y => Qle_bool x y
  | _, _ => false
  end.

(** [Math.min] and [Math.max] of two arguments: [NaN] if either is. *)
Definition Math_min (a b : Number) : Number :=
  match a, b with
  | Rl x, Rl y => if real_leb x y then a else b
  | _, _ => NaN
  end.

Definition Math_max (a b : Number) : Number :=
  match a, b with
  | Rl x, Rl y => if real_leb x y then b else a
  | _, _ => NaN
  end.

Definition isNaN (a : Number) : bool :=
  match a with NaN => true | Rl _ => false end.

Definition isFinite (a : Number) : bool :=
  match a with Rl (Rat _) => true | _ => false end.

(** *** parseFloat

    Strings are sequences of code units below 256.  [parseFloat] skips
    leading white space, reads the longest prefix that is a
    StrDecimalLiteral and returns the Number for its mathematical value;
    there is no such prefix, the result is [NaN]. *)
Module ParseFloat.

Definition isWhite (c : ascii) : bool :=
  let n := nat_of_ascii c in
  ((9 <=? n) && (n <=? 13) || (n =? 32) || (n =? 160))%nat.

Definition isDigit (c : ascii) : bool :=
  let n := nat_of_ascii c in ((48 <=? n) && (n <=? 57))%nat.

Fixpoint skipWhite (s : list ascii) : list ascii :=
  match s with
  | c :: rest => if isWhite c then skipWhite rest else s
  | [] => []
  end.

(** The leading decimal digits of [s], and what follows them. *)
Fixpoint digits (s : list ascii) : list ascii * list ascii :=
  match s with
  | c :: rest =>
      if isDigit c
      then let (ds, r) := digits rest in (c :: ds, r)
      else ([], s)
  | [] => ([], [])
  end.

Definition digitsValue (ds : list ascii) : Z :=
  fold_left (fun acc c => 10 * acc + (Z.of_nat (nat_of_ascii c) - 48)) ds 0.

Fixpoint startsWith (p s : list ascii) : bool :=
  match p, s with
  | [] , _ => true
  | a :: p', b :: s' => Ascii.eqb a b && startsWith p' s'
  | _ :: _, [] => false
  end.

(** An optional sign: [true] for a minus. *)
Definition sign (s : list ascii) : bool * list ascii :=
  match s with
  | "-"%char :: rest => (true, rest)
  | "+"%char :: rest => (false, rest)
  | _ => (false, s)
  end.

(** The value of an ExponentPart at the head of [s], or [0]. *)
Definition exponent (s : list ascii) : Z :=
  match s with
  | c :: rest =>
      if Ascii.eqb c "e" || Ascii.eqb c "E"
      then
        let (neg, r) := sign rest in
        match fst (digits r) with
        | [] => 0
        | ds => if neg then - digitsValue ds else digitsValue ds
        end
      else 0
  | [] => 0
  end.

(** The Number for the value [m * 10 ^ e] with [0 <= m]: a value that
    rounds to [2 ^ 1024] or beyond is [Infinity]. *)
Definition toNumber (neg : bool) (m e : Z) : Number :=
  let over :=
    if 0 <=? e
    then 2 ^ 1024 - 2 ^ 970 <=? m * 10 ^ e
    else (2 ^ 1024 - 2 ^ 970) * 10 ^ (- e) <=? m in
  if over then Rl (if neg then NegInf else PosInf)
  else
    let q := if 0 <=? e then inject_Z (m * 10 ^ e)
             else Qmake m (Z.to_pos (10 ^ (- e))) in
    num (if neg then Qopp q else q).

Definition parseFloat (input : string) : Number :=
  let (neg, s) := sign (skipWhite (list_ascii_of_string input)) in
  if startsWith (list_ascii_of_string "Infinity") s
  then Rl (if neg then NegInf else PosInf)
  else
    let (ip, afterInt) := digits s in
    let (fp, afterFrac) :=
      match afterInt with
      | "."%char :: rest => digits rest
      | _ => ([], afterInt)
      end in
    match ip ++ fp with
    | [] => NaN
    | mantissa =>
        toNumber neg (digitsValue mantissa)
          (exponent afterFrac - Z.of_nat (length fp))
    end.

End ParseFloat.

Definition parseFloat := ParseFloat.parseFloat.

(** Gas prices in gwei ([GasPrices] of [@darkforest_eth/types]). *)
Record GasPrices : Type := mkGasPrices {
  slow : Number;
  average : Number;
  fast : Number;
}.

(** A rejection or a thrown exception carries a message. *)
Definition Err : Type := string.

(** ** xDaiApi.js: the gas price oracle client *)
Module xDaiApi.

(** A property value of the parsed response. Nested arrays and objects are
    not inspected by the client. *)
Inductive Json : Type :=
| JNull
| JBool (b : bool)
| JNumber (r : Real)
| JString (s : string)
| JNested.

(** What [res.json()] resolved with: [null], a primitive, or an object
    (an array is an object here) with its properties. *)
Inductive Parsed : Type :=
| PNull
| PPrimitive (v : Json)
| PObject (props : gmap string Json).

(** What the request did: [fetch] rejected, [res.json()] rejected, or the
    body was parsed. *)
Inductive Response : Type :=
| NetworkFailure (e : Err)
| ParseFailure (e : Err)
| Body (b : Parsed).

Section Constants.
(** [MAX_AUTO_GAS_PRICE_GWEI] and [DEFAULT_GAS_PRICES] come from
    [@darkforest_eth/constants]. *)
Variable MAX_AUTO_GAS_PRICE_GWEI : Q.
Variable DEFAULT_GAS_PRICES : GasPrices.

(** [typeof o.name !== 'number' ? dflt : o.name]. *)
Definition numberOr (props : gmap string Json) (name : string)
           (dflt : Number) : Number :=
  match props !! name with
  | Some (JNumber r) => Rl r
  | _ => dflt
  end.

Definition clamp (x : Number) : Number :=
  Math_max (num 1) (Math_min (num MAX_AUTO_GAS_PRICE_GWEI) x).

(** A finite Number between 1 and the maximum. *)
Definition inRange (n : Number) : Prop :=
  exists q, n = num q /\ (1 <= q)%Q /\ (q <= MAX_AUTO_GAS_PRICE_GWEI)%Q.

(** [cleanGasPrices] mutates its argument; the result is the three
    cleaned properties of that object.  The module is in strict mode:
    reading a property of [null] throws, and so does writing one on a
    primitive. *)
Definition cleanGasPrices (gasPrices : Parsed) : Err + GasPrices :=
  match gasPrices with
  | PNull => inl "TypeError: Cannot read properties of null"%string
  | PPrimitive _ => inl "TypeError: Cannot create property"%string
  | PObject props =>
      let f := numberOr props "fast" (fast DEFAULT_GAS_PRICES) in
      let a := numberOr props "average" (average DEFAULT_GAS_PRICES) in
      let s := numberOr props "slow" (slow DEFAULT_GAS_PRICES) in
      inr (mkGasPrices (clamp s) (clamp a) (clamp f))
  end.

(** [getAutoGasPrices]: the [try] block, then the [catch]. The result is
    what the returned promise settles with. *)
Definition getAutoGasPrices (r : Response) : Err + GasPrices :=
  let attempt : Err + GasPrices :=
    match r with
    | NetworkFailure e => inl e
    | ParseFailure e => inl e
    | Body prices => cleanGasPrices prices
    end in
  match attempt with
  | inr prices => inr prices
  | inl _ => inr DEFAULT_GAS_PRICES
  end.
End Constants.

End xDaiApi.

(** ** Network.js *)
Module Network.

(** [DEFAULT_MAX_CALL_RETRIES] of [@darkforest_eth/constants]; the value
    is the one in the declaration of [callWithRetry]. *)
Definition DEFAULT_MAX_CALL_RETRIES : nat := 12.

(** [getGasSettingGwei]; [None] is [undefined]. *)
Definition getGasSettingGwei (setting : string) (gasPrices : GasPrices)
  : option Number :=
  if String.eqb setting "Slow" then Some (slow gasPrices)
  else if String.eqb setting "Average" then Some (average gasPrices)
  else if String.eqb setting "Fast" then Some (fast gasPrices)
  else None.

Inductive ProviderKind : Type := WebSocketProvider | StaticJsonRpcProvider.

Record Provider : Type := mkProvider {
  kind : ProviderKind;
  url : string;
  pollingInterval : option Z;
}.

(** The [defaultUrl] of ethers' [JsonRpcProvider], which its constructor
    takes in place of an empty URL. *)
Definition defaultUrl : string := "http://localhost:8545".

(** [makeProvider]. [url] is [provider.connection.url].  The constructors
    are taken to return: a web socket URL that the [WebSocket] constructor
    refuses is outside the model. *)
Definition makeProvider (rpcUrl : string) : Provider :=
  if String.prefix "wss://" rpcUrl
  then mkProvider WebSocketProvider rpcUrl None
  else mkProvider StaticJsonRpcProvider
         (if String.eqb rpcUrl EmptyString then defaultUrl else rpcUrl)
         (Some 8000).

(** *** aggregateBulkGetter *)
Section BulkGetter.
Context {T : Type}.
Variable total querySize : nat.
Variable getterFn : nat -> nat -> list T.

(** The [for] loop: one chunk per [i] with [i < total / querySize],
    which for natural numbers is [i * querySize < total] (also when
    [querySize] is [0] and the quotient is [Infinity] or [NaN]). The
    loop is cut after [fuel] iterations. *)
Fixpoint chunksFrom (fuel i : nat) : option (list (nat * nat)) :=
  if (i * querySize <? total)%nat
  then
    match fuel with
    | O => None
    | S fuel' =>
        let start := (i * querySize)%nat in
        let end_ := Nat.min ((i + 1) * querySize) total in
        option_map (cons (start, end_)) (chunksFrom fuel' (i + 1)%nat)
    end
  else Some [].

(** The state shared by the chunk loaders: what each chunk resolved
    with ([None] while its loop is still running), the counter
    [loadedSoFar] and the arguments [onProgress] was called with. *)
Record Loading : Type := mkLoading {
  resolved : list (option (list T));
  loadedSoFar : nat;
  progress : list Q;
}.

Definition fraction (loaded : nat) : Q :=
  Qmake (Z.of_nat loaded) (Pos.of_nat total).

(** The promise awaited by chunk [i] settles: one turn of its [while]
    loop.  An empty batch leaves the chunk loading, with the getter
    called again. *)
Definition settleChunk (chunks : list (nat * nat)) (withProgress : bool)
           (i : nat) (st : Loading) : Loading :=
  match chunks !! i, resolved st !! i with
  | Some (start, end_), Some None =>
      let res := getterFn start end_ in
      let loaded := (loadedSoFar st + (end_ - start))%nat in
      mkLoading
        (match res with
         | [] => resolved st
         | _ => <[i := Some res]> (resolved st)
         end)
        loaded
        (if withProgress then progress st ++ [fraction loaded]
         else progress st)
  | _, _ => st
  end.

(** [Promise.all]: every chunk resolved, in index order. *)
Fixpoint allResolved (rs : list (option (list T)))
  : option (list (list T)) :=
  match rs with
  | [] => Some []
  | Some r :: rest => option_map (cons r) (allResolved rest)
  | None :: _ => None
  end.

(** [aggregateBulkGetter].  [order] lists the chunks in the order in
    which their awaited promises settle. [None]: the returned promise
    is still pending when [order] (or the loop's [fuel]) is used up. *)
Definition aggregateBulkGetter (withProgress : bool) (fuel : nat)
           (order : list nat) : option (list T * list Q) :=
  match chunksFrom fuel 0 with
  | None => None
  | Some chunks =>
      let st0 := mkLoading (List.map (fun _ => None) chunks) 0 [] in
      let st := fold_left (fun st i => settleChunk chunks withProgress i st)
                  order st0 in
      match allResolved (resolved st) with
      | None => None
      | Some unflattenedResults =>
          Some (concat unflattenedResults,
                if withProgress then progress st ++ [1%Q] else progress st)
      end
  end.

(** The partition of [[0, total)] into [ceil(total / querySize)] chunks
    of [querySize], and the batch of a chunk. *)
Definition ceilDiv (a b : nat) : nat := ((a + b - 1) / b)%nat.

Definition chunkOf (i : nat) : nat * nat :=
  ((i * querySize)%nat, Nat.min ((i + 1) * querySize) total).

Definition partition : list (nat * nat) :=
  List.map chunkOf (seq 0 (ceilDiv total querySize)).

Definition getChunk (c : nat * nat) : list T := getterFn (fst c) (snd c).

(** Every chunk is loading or has resolved with its own batch. *)
Definition wellLoaded (chunks : list (nat * nat)) (st : Loading) : Prop :=
  length (resolved st) = length chunks
  /\ forall i c, chunks !! i = Some c ->
                 resolved st !! i = Some None
                 \/ resolved st !! i = Some (Some (getChunk c)).
End BulkGetter.

End Network.

(** ** EthConnection.js *)
Module EthConnection.
Import Network.

(** The wallet built by [setAccount], given by its private key. *)
Definition Signer : Type := string.

(** An ethers contract handle: where it points and what it is connected
    to. *)
Record Contract : Type := mkContract {
  address : string;
  connectedTo : Provider;
  signedBy : option Signer;
}.

(** A contract loader; it resolves with a handle or rejects. *)
Definition Loader : Type :=
  string -> Provider -> option Signer -> Err + Contract.

(** [new Contract(address, abi, signer ?? provider)], the loader that
    [createContract] gives. *)
Definition createContract : Loader :=
  fun address provider signer => inr (mkContract address provider signer).

(** The fields the registry and the gas price selection use. [loaders] is
    a JavaScript [Map] that is iterated: an association list in insertion
    order. [rpcChanged] are the values published on [rpcChanged$]. *)
Record t : Type := mk {
  provider : Provider;
  signer : option Signer;
  gasPrices : GasPrices;
  contracts : gmap string Contract;
  loaders : list (string * Loader);
  rpcChanged : list string;
}.

(** [Map.prototype.set] on the association list: a present key keeps its
    place. *)
Fixpoint mapSet {V : Type} (k : string) (v : V) (m : list (string * V))
  : list (string * V) :=
  match m with
  | [] => [(k, v)]
  | (k', v') :: rest =>
      if String.eqb k k' then (k, v) :: rest else (k', v') :: mapSet k v rest
  end.

Definition set_contracts (c : t) (cs : gmap string Contract) : t :=
  mk (provider c) (signer c) (gasPrices c) cs (loaders c) (rpcChanged c).

(** The loop of [reloadContracts] over the entries [ls]. A loader that
    rejects ends the loop with the error. *)
Fixpoint reloadLoop (ls : list (string * Loader)) (c : t) : t * option Err :=
  match ls with
  | [] => (c, None)
  | (addr, loader) :: rest =>
      match loader addr (provider c) (signer c) with
      | inl e => (c, Some e)
      | inr contract =>
          reloadLoop rest (set_contracts c (<[addr := contract]> (contracts c)))
      end
  end.

Definition reloadContracts (c : t) : t * option Err :=
  reloadLoop (loaders c) c.

(** [loadContract]. *)
Definition loadContract (addr : string) (loader : Loader) (c : t)
  : t * (Err + Contract) :=
  let c1 := mk (provider c) (signer c) (gasPrices c) (contracts c)
              (mapSet addr loader (loaders c)) (rpcChanged c) in
  match loader addr (provider c1) (signer c1) with
  | inl e => (c1, inl e)
  | inr contract =>
      (set_contracts c1 (<[addr := contract]> (contracts c1)), inr contract)
  end.

(** [getContract]. *)
Definition getContract (addr : string) (c : t) : Err + Contract :=
  match contracts c !! addr with
  | Some contract => inr contract
  | None => inl ("Contract never loaded. Address: " ++ addr)%string
  end.

(** [setRpcUrl]. *)
Definition setRpcUrl (rpcUrl : string) (c : t) : t * option Err :=
  let newProvider := makeProvider rpcUrl in
  match reloadContracts c with
  | (c1, Some e) => (c1, Some e)
  | (c1, None) =>
      (mk newProvider (signer c1) (gasPrices c1) (contracts c1) (loaders c1)
         (rpcChanged c1 ++ [url newProvider]),
       None)
  end.

(** [getAutoGasPrices]: a copy of the latest prices. *)
Definition getAutoGasPrices (c : t) : GasPrices :=
  mkGasPrices (slow (gasPrices c)) (average (gasPrices c)) (fast (gasPrices c)).

(** [getAutoGasPriceGwei]. *)
Definition getAutoGasPriceGwei (gasPrices : GasPrices)
           (gasPriceSetting : string) : Number :=
  match getGasSettingGwei gasPriceSetting gasPrices with
  | Some autoPrice => autoPrice
  | None =>
      let parsedSetting := parseFloat gasPriceSetting in
      if negb (isNaN parsedSetting) then parsedSetting
      else average gasPrices
  end.

End EthConnection.

(** ** p-retry, as the callers use it

    The library is a dependency of the repository. *)

(** What the [catch] of p-retry tells apart in the value an attempt
    rejects with: an [Error] that is retried, a [TypeError] (other than
    the network failures that later versions retry), an [AbortError] with
    its [originalError], and a value that is no [Error], with its string
    conversion.  An error is given by its message. *)
Inductive Rejection : Type :=
| AnError (e : Err)
| ATypeError (e : Err)
| AnAbortError (originalError : Err)
| NotAnError (shown : string).

Definition doubleQuote : string := String (ascii_of_nat 34) EmptyString.

(** What p-retry rejects with when it stops at a rejection it does not
    retry. *)
Definition stopsWith (r : Rejection) : Err :=
  match r with
  | AnError e => e
  | ATypeError e => e
  | AnAbortError originalError => originalError
  | NotAnError shown =>
      ("Non-error was thrown: " ++ doubleQuote ++ shown ++ doubleQuote
       ++ ". You should only throw errors.")%string
  end.

(** [counts[message]] in [mainError]. *)
Definition countOf (message : Err) (seen : list Err) : nat :=
  length (filter (String.eqb message) seen).

(** The loop of [mainError] of the [retry] package, which p-retry rejects
    with when the retries are used up: the error whose message occurred
    most often, the later one on equal counts. *)
Fixpoint mainErrorLoop (errors seen : list Err) (mainError : option Err)
         (mainErrorCount : nat) : option Err :=
  match errors with
  | [] => mainError
  | error :: rest =>
      let count := S (countOf error seen) in
      if (mainErrorCount <=? count)%nat
      then mainErrorLoop rest (seen ++ [error]) (Some error) count
      else mainErrorLoop rest (seen ++ [error]) mainError mainErrorCount
  end.

Definition mainError (errors : list Err) : option Err :=
  mainErrorLoop errors [] None 0.

(** [pRetry(input, {retries})]; [errors] are the errors of the attempts
    retried so far.  The input runs at most [retries + 1] times, with the
    attempt numbers from [attemptNumber] on.  An attempt that rejects with
    an [Error] is retried while retries remain; any other rejection ends
    the run at once. *)
Fixpoint pRetry {St A : Type} (retries attemptNumber : nat)
         (errors : list Err)
         (input : nat -> St -> (Rejection + A) * St) (s : St)
  : (Err + A) * St :=
  match input attemptNumber s with
  | (inr v, s') => (inr v, s')
  | (inl (AnError e), s') =>
      match retries with
      | O => (inl (default e (mainError (errors ++ [e]))), s')
      | S r => pRetry r (S attemptNumber) (errors ++ [e]) input s'
      end
  | (inl r, s') => (inl (stopsWith r), s')
  end.

(** ** ContractCaller.js *)
Module ContractCaller.
Import Network.

Record Diagnostics : Type := mkDiagnostics {
  totalCalls : nat;
  callsInQueue : Z;
}.

(** [diagnostics] is what the updater set by [setDiagnosticUpdater]
    maintains, if one was set.  [invoked] is a ghost field: the attempt
    numbers at which [makeCall] itself called the view function. *)
Record t : Type := mk {
  queue : ThrottledConcurrentQueue.World;
  maxRetries : nat;
  diagnostics : option Diagnostics;
  invoked : list nat;
}.

(** The queue field initializer, [new ThrottledConcurrentQueue(10, 100, 20)]. *)
Definition defaultQueue (t0 : Z) : ThrottledConcurrentQueue.World :=
  ThrottledConcurrentQueue.boot
    (ThrottledConcurrentQueue.mkQueue [] 0 100 (Finite 20)
       (CircularBuffer.create 10) None) t0.

(** [constructor]: an absent queue and an absent or zero [maxRetries]
    keep the defaults. *)
Definition new (t0 : Z) (queue : option ThrottledConcurrentQueue.World)
           (maxRetries : option nat) : t :=
  mk (match queue with Some q => q | None => defaultQueue t0 end)
     (match maxRetries with
      | Some (S n) => S n
      | _ => DEFAULT_MAX_CALL_RETRIES
      end)
     None [].

Definition updateDiagnostics (f : Diagnostics -> Diagnostics) (c : t) : t :=
  mk (queue c) (maxRetries c) (option_map f (diagnostics c)) (invoked c).

Definition bumpTotalCalls (d : Diagnostics) : Diagnostics :=
  mkDiagnostics (S (totalCalls d)) (callsInQueue d).

Definition recordCallsInQueue (c : t) : t :=
  updateDiagnostics
    (fun d => mkDiagnostics (totalCalls d)
                (ThrottledConcurrentQueue.size
                   (ThrottledConcurrentQueue.queue (queue c))))
    c.

Section MakeCall.
Context {A : Type}.
(** What [contractViewFunction(...args)] settles with at each attempt. *)
Variable contractViewFunction : nat -> Rejection + A.

(** The function handed to [pRetry]. *)
Definition attempt (attemptNumber : nat) (c : t) : (Rejection + A) * t :=
  let c1 := recordCallsInQueue (updateDiagnostics bumpTotalCalls c) in
  let c2 := mk (queue c1) (maxRetries c1) (diagnostics c1)
              (invoked c1 ++ [attemptNumber]) in
  match contractViewFunction attemptNumber with
  | inr callResult => (inr callResult, recordCallsInQueue c2)
  | inl e => (inl e, c2)
  end.

(** [makeCall]. *)
Definition makeCall (c : t) : (Err + A) * t :=
  let (result, c1) := pRetry (maxRetries c) 1 [] attempt c in
  (result, updateDiagnostics bumpTotalCalls c1).
End MakeCall.

End ContractCaller.

(** ** TxExecutor.js *)
Module TxExecutor.
Import Network.

Definition TX_SUBMIT_TIMEOUT : Z := 30000.
Definition NONCE_STALE_AFTER_MS : Z := 5000.

(** Values of the properties of a transaction request. *)
Inductive Value : Type :=
| VUndefined
| VInt (n : Z)
| VBigNumber (wei : Z)
| VString (s : string).

(** JavaScript objects live in a heap and are passed by reference. *)
Definition Ref : Type := nat.
Abbreviation Object := (gmap string Value).
Abbreviation Heap := (gmap Ref Object).

(** [o.name === undefined]: the property is absent or holds [undefined]. *)
Definition isUndefined (o : Object) (name : string) : bool :=
  match o !! name with
  | None | Some VUndefined => true
  | Some _ => false
  end.

Record TransactionResponse : Type := mkResponse { hash : string }.
Record TransactionReceipt : Type := mkReceipt { status : Z }.

(** What an awaited promise does: it resolves or rejects [after] so many
    milliseconds, or it never settles. *)
Inductive Settled (A : Type) : Type :=
| Resolves (after : nat) (v : A)
| Rejects (after : nat) (e : Err)
| Never.
Arguments Resolves {A} after v.
Arguments Rejects {A} after e.
Arguments Never {A}.

(** [pTimeout(promise, ms, message)]: the promise if it settles before
    the timer, a rejection with [message] otherwise. *)
Definition pTimeout {A : Type} (p : Settled A) (ms : Z) (message : Err)
  : Settled A :=
  match p with
  | Resolves after v =>
      if Z.of_nat after <? ms then p else Rejects (Z.to_nat ms) message
  | Rejects after e =>
      if Z.of_nat after <? ms then p else Rejects (Z.to_nat ms) message
  | Never => Rejects (Z.to_nat ms) message
  end.

Record QueuedTransaction : Type := mkTx {
  actionId : string;
  contract : EthConnection.Contract;
  methodName : string;
  args : list Value;
  overrides : Ref;
}.

(** The four callbacks of a queued transaction, as events. *)
Inductive Callback : Type :=
| OnSubmissionError (e : Err)
| OnReceiptError (e : Err)
| OnTransactionResponse (r : TransactionResponse)
| OnTransactionReceipt (r : TransactionReceipt).

(** The executor's fields. [pending] holds the closures given to the
    queue, by task. *)
Record t : Type := mk {
  nonce : option Z;
  lastTransactionTimestamp : Z;
  beforeTransaction : bool;
  queue : ThrottledConcurrentQueue.World;
  pending : list (ThrottledConcurrentQueue.Task * QueuedTransaction);
}.

Definition defaultTxOptions : Object := {[ "gasLimit"%string := VInt 2000000 ]}.

(** [constructor], at time [now]. *)
Definition new (now : Z) (beforeTransaction : bool) : t :=
  mk None now beforeTransaction
     (ThrottledConcurrentQueue.boot
        (ThrottledConcurrentQueue.mkQueue [] 0 100 (Finite 1)
           (CircularBuffer.create 3) None) now)
     [].

(** What the environment decides during one [execute]: the outcome of
    [ethConnection.getNonce()], of the [beforeTransaction] hook, of the
    contract method and of [ethConnection.waitForTransaction]. *)
Record Env : Type := mkEnv {
  getNonce : Settled (option Z);
  before : Settled unit;
  submit : Settled TransactionResponse;
  wait : Settled TransactionReceipt;
}.

(** The state of one run of [execute]: the executor, the clock, the local
    variables of the function, and three logs: the callbacks [fired], the
    requests [sent] to the contract method, and the number of calls of
    [getNonce]. [waiting] is the hash the detached confirmation waits
    for. *)
Record Frame : Type := mkFrame {
  self : t;
  now : Z;
  time_called : option Z;
  time_submitted : option Z;
  time_errored : option Z;
  error : option Err;
  tx_hash : option string;
  fired : list Callback;
  sent : list Object;
  nonceQueries : nat;
  waiting : option string;
}.

(** An asynchronous computation finishes, throws, or hangs on a promise
    that never settles. *)
Inductive Res (A : Type) : Type :=
| Done (f : Frame) (a : A)
| Thrown (f : Frame) (e : Err)
| Hung (f : Frame).
Arguments Done {A} f a.
Arguments Thrown {A} f e.
Arguments Hung {A} f.

Definition M (A : Type) : Type := Frame -> Res A.

Definition ret {A : Type} (a : A) : M A := fun f => Done f a.

Definition bind {A B : Type} (m : M A) (k : A -> M B) : M B :=
  fun f =>
    match m f with
    | Done f' a => k a f'
    | Thrown f' e => Thrown f' e
    | Hung f' => Hung f'
    end.

Notation "x <- m ;; k" := (bind m (fun x => k))
  (at level 100, m at next level, right associativity).
Notation "m ;;; k" := (bind m (fun _ => k))
  (at level 100, right associativity).

Definition update (g : Frame -> Frame) : M unit := fun f => Done (g f) tt.

Definition get : M Frame := fun f => Done f f.

Definition tick (d : nat) (f : Frame) : Frame :=
  mkFrame (self f) (now f + Z.of_nat d) (time_called f) (time_submitted f)
    (time_errored f) (error f) (tx_hash f) (fired f) (sent f)
    (nonceQueries f) (waiting f).

(** [await p]. *)
Definition await {A : Type} (p : Settled A) : M A :=
  fun f =>
    match p with
    | Resolves d v => Done (tick d f) v
    | Rejects d e => Thrown (tick d f) e
    | Never => Hung f
    end.

(** [try { m } catch (e) { handler e }]. *)
Definition tryCatch {A : Type} (m : M A) (handler : Err -> M A) : M A :=
  fun f =>
    match m f with
    | Thrown f' e => handler e f'
    | r => r
    end.

Definition set_self (x : t) (f : Frame) : Frame :=
  mkFrame x (now f) (time_called f) (time_submitted f) (time_errored f)
    (error f) (tx_hash f) (fired f) (sent f) (nonceQueries f) (waiting f).

Definition set_nonce (n : option Z) (x : t) : t :=
  mk n (lastTransactionTimestamp x) (beforeTransaction x) (queue x) (pending x).

Definition set_last (ts : Z) (x : t) : t :=
  mk (nonce x) ts (beforeTransaction x) (queue x) (pending x).

Definition fire (c : Callback) : M unit :=
  update (fun f =>
    mkFrame (self f) (now f) (time_called f) (time_submitted f)
      (time_errored f) (error f) (tx_hash f) (fired f ++ [c]) (sent f)
      (nonceQueries f) (waiting f)).

Definition isNone {A : Type} (o : option A) : bool :=
  match o with None => true | Some _ => false end.

(** [maybeUpdateNonce]. *)
Definition maybeUpdateNonce (env : Env) : M unit :=
  f <- get ;;
  if isNone (nonce (self f))
     || (NONCE_STALE_AFTER_MS <? now f - lastTransactionTimestamp (self f))
  then
    update (fun f =>
      mkFrame (self f) (now f) (time_called f) (time_submitted f)
        (time_errored f) (error f) (tx_hash f) (fired f) (sent f)
        (S (nonceQueries f)) (waiting f)) ;;;
    newNonce <- await (getNonce env) ;;
    match newNonce with
    | Some n => update (fun f => set_self (set_nonce (Some n) (self f)) f)
    | None => ret tt
    end
  else ret tt.

Definition nonceValue (n : option Z) : Value :=
  match n with Some n => VInt n | None => VUndefined end.

(** [Object.assign(JSON.parse(JSON.stringify(defaultTxOptions)),
    txRequest.overrides)]: the properties of [overrides] win. *)
Definition requestWithDefaults (heap : Heap) (txRequest : QueuedTransaction)
  : Object :=
  default ∅ (heap !! overrides txRequest) ∪ defaultTxOptions.

(** [{...requestWithDefaults, nonce: this.nonce}]. *)
Definition withNonce (request : Object) (n : option Z) : Object :=
  <["nonce"%string := nonceValue n]> request.

(** The call of the contract method, [contract[methodName](...args,
    {...requestWithDefaults, nonce})], under [pTimeout]. *)
Definition submitTransaction (heap : Heap) (txRequest : QueuedTransaction)
           (env : Env) : M TransactionResponse :=
  f <- get ;;
  let request : Object :=
    withNonce (requestWithDefaults heap txRequest) (nonce (self f)) in
  update (fun f =>
    mkFrame (self f) (now f) (Some (now f)) (time_submitted f)
      (time_errored f) (error f) (tx_hash f) (fired f) (sent f ++ [request])
      (nonceQueries f) (waiting f)) ;;;
  await (pTimeout (submit env) TX_SUBMIT_TIMEOUT
           ("tx request " ++ actionId txRequest
            ++ " failed to submit: timed out}")%string).

(** The [try] block of [execute]. *)
Definition tryBlock (heap : Heap) (txRequest : QueuedTransaction)
           (env : Env) : M unit :=
  maybeUpdateNonce env ;;;
  f <- get ;;
  (if beforeTransaction (self f) then await (before env) else ret tt) ;;;
  submitted <- submitTransaction heap txRequest env ;;
  update (fun f =>
    let x := self f in
    let x1 := match nonce x with
              | Some n => set_nonce (Some (n + 1)) x
              | None => x
              end in
    mkFrame (set_last (now f) x1) (now f) (time_called f) (Some (now f))
      (time_errored f) (error f) (Some (hash submitted)) (fired f) (sent f)
      (nonceQueries f) (waiting f)) ;;;
  fire (OnTransactionResponse submitted) ;;;
  update (fun f =>
    mkFrame (self f) (now f) (time_called f) (time_submitted f)
      (time_errored f) (error f) (tx_hash f) (fired f) (sent f)
      (nonceQueries f) (Some (hash submitted))).

(** The [catch] block of [execute]. *)
Definition catchBlock (e : Err) : M unit :=
  update (fun f =>
    mkFrame (self f) (now f) (time_called f) (time_submitted f)
      (Some (now f)) (Some e) (tx_hash f) (fired f) (sent f)
      (nonceQueries f) (waiting f)) ;;;
  f <- get ;;
  if negb (match time_submitted f with Some ts => truthy ts | None => false end)
  then fire (OnSubmissionError e)
  else fire (OnReceiptError e).

Definition enter (x : t) (clock : Z) : Frame :=
  mkFrame x clock None None None None None [] [] 0 None.

(** [execute], called at time [clock].  The log event assembled after the
    [try] statement reads the local variables and does not write the
    executor's fields or call the transaction's callbacks. *)
Definition execute (heap : Heap) (txRequest : QueuedTransaction) (env : Env)
           (x : t) (clock : Z) : Res unit :=
  tryCatch (tryBlock heap txRequest env) catchBlock (enter x clock).

Definition frameOf {A : Type} (r : Res A) : Frame :=
  match r with Done f _ | Thrown f _ | Hung f => f end.

(** The detached [waitForTransaction(...).then(...).catch(onReceiptError)]:
    the callbacks it fires. *)
Definition confirmation (env : Env) (f : Frame) : list Callback :=
  match waiting f with
  | None => []
  | Some _ =>
      match wait env with
      | Resolves _ confirmed => [OnTransactionReceipt confirmed]
      | Rejects _ e => [OnReceiptError e]
      | Never => []
      end
  end.

(** Every callback fired for a transaction, in order. *)
Definition callbacks (heap : Heap) (txRequest : QueuedTransaction)
           (env : Env) (x : t) (clock : Z) : list Callback :=
  let f := frameOf (execute heap txRequest env x clock) in
  fired f ++ confirmation env f.

(** A deferred promise ([p-defer]): the first call of [resolve] or
    [reject] settles it, later calls do nothing. *)
Inductive Promise (A : Type) : Type :=
| Pending
| Fulfilled (v : A)
| Rejected (e : Err).
Arguments Pending {A}.
Arguments Fulfilled {A} v.
Arguments Rejected {A} e.

Definition settleWith {A : Type} (p q : Promise A) : Promise A :=
  match p with Pending => q | _ => p end.

(** The two promises of the [PendingTransaction], after the callbacks
    [cs]: [onSubmissionError] and [onTransactionResponse] are the
    [reject] and [resolve] of [submitted], [onReceiptError] and
    [onTransactionReceipt] those of [confirmed]. *)
Definition submittedAfter (cs : list Callback) : Promise TransactionResponse :=
  fold_left (fun p c =>
    match c with
    | OnSubmissionError e => settleWith p (Rejected e)
    | OnTransactionResponse r => settleWith p (Fulfilled r)
    | _ => p
    end) cs Pending.

Definition confirmedAfter (cs : list Callback) : Promise TransactionReceipt :=
  fold_left (fun p c =>
    match c with
    | OnReceiptError e => settleWith p (Rejected e)
    | OnTransactionReceipt r => settleWith p (Fulfilled r)
    | _ => p
    end) cs Pending.

(** How often a callback fired. *)
Definition timesFired (which : Callback -> bool) (cs : list Callback) : nat :=
  length (List.filter which cs).

Definition isSubmissionError (c : Callback) : bool :=
  match c with OnSubmissionError _ => true | _ => false end.
Definition isReceiptError (c : Callback) : bool :=
  match c with OnReceiptError _ => true | _ => false end.
Definition isTransactionResponse (c : Callback) : bool :=
  match c with OnTransactionResponse _ => true | _ => false end.
Definition isTransactionReceipt (c : Callback) : bool :=
  match c with OnTransactionReceipt _ => true | _ => false end.

(** The contract method settles before the submission timer. *)
Definition submitsInTime (env : Env) : bool :=
  match submit env with
  | Resolves after _ => Z.of_nat after <? TX_SUBMIT_TIMEOUT
  | _ => false
  end.

(** The nonce a request carries. *)
Definition carriedNonce (request : Object) : option Value :=
  request !! "nonce"%string.

(** The nonce is unknown or stale at [clock]: [maybeUpdateNonce] asks the
    chain. *)
Definition refreshDue (x : t) (clock : Z) : bool :=
  isNone (nonce x)
  || (NONCE_STALE_AFTER_MS <? clock - lastTransactionTimestamp x).

(** A run has failed when the [try] block threw (the nonce could not be
    fetched, the hook refused, the submission was rejected or timed out)
    or the wait for the receipt was rejected. *)
Definition failedRun (heap : Heap) (tx : QueuedTransaction) (env : Env)
           (x : t) (clock : Z) : bool :=
  match tryBlock heap tx env (enter x clock) with
  | Thrown _ _ => true
  | Hung _ => false
  | Done _ _ => match wait env with Rejects _ _ => true | _ => false end
  end.

Section QueueTransaction.
(** [gweiToWei] is [ethers.utils.parseUnits(gwei + '', 'gwei')], which
    throws on a string that is not a decimal with at most nine
    fractional digits. *)
Variable gweiToWei : Number -> Err + Z.

(** The closure numbered [task] is handed to [queue.add]. *)
Definition enqueue (task : ThrottledConcurrentQueue.Task)
           (tx : QueuedTransaction) (x : t) : t :=
  mk (nonce x) (lastTransactionTimestamp x) (beforeTransaction x)
     (ThrottledConcurrentQueue.add task (queue x))
     (pending x ++ [(task, tx)]).

(** [queueTransaction].  [overrides] is a reference to the caller's
    object, or [None] when the argument is left out and the default
    object is created.  [gasPriceSetting] is what [gasSettingProvider()]
    returns.  The result is the task that stands for the pending
    transaction, or the exception thrown. *)
Definition queueTransaction (conn : EthConnection.t)
           (gasPriceSetting : string)
           (actionId : string) (contract : EthConnection.Contract)
           (methodName : string) (args : list Value)
           (overrides : option Ref) (x : t) (heap : Heap)
  : (Err + ThrottledConcurrentQueue.Task) * t * Heap :=
  let '(ref, heap0) :=
    match overrides with
    | Some r => (r, heap)
    | None =>
        let r := fresh (dom heap) in
        (r, <[r := {[ "gasPrice"%string := VUndefined;
                       "gasLimit"%string := VInt 2000000 ]}]> heap)
    end in
  let o := default ∅ (heap0 !! ref) in
  let priced : Err + Heap :=
    if isUndefined o "gasPrice"
    then
      match gweiToWei
              (EthConnection.getAutoGasPriceGwei
                 (EthConnection.getAutoGasPrices conn) gasPriceSetting) with
      | inr wei => inr (<[ref := <["gasPrice"%string := VBigNumber wei]> o]> heap0)
      | inl e => inl e
      end
    else inr heap0 in
  match priced with
  | inl e => (inl e, x, heap0)
  | inr heap1 =>
      let task := length (pending x) in
      (inr task,
       enqueue task (mkTx actionId contract methodName args ref) x,
       heap1)
  end.
End QueueTransaction.

End TxExecutor.

(** ** Inputs of the examples *)

(** A stand-in for [parseUnits(gwei + '', 'gwei')] on values with at most
    nine fractional digits. *)
Definition exampleGweiToWei (gwei : Number) : Err + Z :=
  match gwei with
  | Rl (Rat q) =>
      let wei := Qred (q * 1000000000) in
      if Pos.eqb (Qden wei) 1 then inr (Qnum wei)
      else inl "fractional component exceeds decimals"%string
  | _ => inl "invalid decimal value"%string
  end.

(** A private key of the examples, and a stand-in for
    [new Wallet(skey, provider)] at that key; other keys are not needed
    and are refused. *)
Definition exampleKey : string :=
  "0x0123456789012345678901234567890123456789012345678901234567890123".

Definition exampleWallet (skey : string) : Err + EthConnection.Signer :=
  if String.eqb skey exampleKey then inr skey
  else inl "invalid private key"%string.

(** A connection on [https://old.example] with one loader, at [0xA]. *)
Definition exampleConnection : EthConnection.t :=
  EthConnection.mk (Network.makeProvider "https://old.example") None
    (mkGasPrices (num 1) (num 3) (num 10)) ∅
    [("0xA"%string, EthConnection.createContract)] [].

(** ** Vocabulary of the further properties *)

(** Every task the queue has seen, in the order in which it leaves the
    queue: the started ones, then the queued ones from the back of the
    array. *)
Definition startOrder (w : ThrottledConcurrentQueue.World)
  : list ThrottledConcurrentQueue.Task :=
  List.map fst (ThrottledConcurrentQueue.started w)
  ++ rev (ThrottledConcurrentQueue.taskQueue (ThrottledConcurrentQueue.queue w)).

(** At most one wake-up timer is pending; it is the one [executionTimeout]
    names and its delay is at least [W]. *)
Definition oneWake (W : Z) (w : ThrottledConcurrentQueue.World) : Prop :=
  ThrottledConcurrentQueue.timers w = []
  \/ exists h d,
      ThrottledConcurrentQueue.timers w = [(h, d)]
      /\ ThrottledConcurrentQueue.executionTimeout
           (ThrottledConcurrentQueue.queue w) = Some h
      /\ W <= d.

(** The number of running tasks is between 0 and the limit [c]. *)
Definition inFlightWithin (c : Z) (w : ThrottledConcurrentQueue.World) : Prop :=
  ThrottledConcurrentQueue.maxConcurrency (ThrottledConcurrentQueue.queue w)
  = Finite c
  /\ 0 <= ThrottledConcurrentQueue.concurrency (ThrottledConcurrentQueue.queue w)
     <= c.

(** ** EthConnection.js: the account and the block watcher *)
Module Account.

(** The connection with the balance of its account, in wei (initially 0). *)
Record t : Type := mk {
  connection : EthConnection.t;
  balance : Z;
}.

(** [setAccount]. [Wallet] is the constructor [new Wallet(skey, provider)]
    of ethers, which throws on a key it does not accept, and [loadBalance]
    is what [this.loadBalance(address)] settles with. The signer is
    assigned once the wallet is built and before the balance is awaited. *)
Definition setAccount (Wallet : string -> Err + EthConnection.Signer)
           (skey : string) (loadBalance : Err + Z) (a : t) : t * option Err :=
  let c := connection a in
  match Wallet skey with
  | inl e => (a, Some e)
  | inr wallet =>
      let c1 := EthConnection.mk (EthConnection.provider c) (Some wallet)
                  (EthConnection.gasPrices c) (EthConnection.contracts c)
                  (EthConnection.loaders c) (EthConnection.rpcChanged c) in
      match loadBalance with
      | inl e => (mk c1 (balance a), Some e)
      | inr b =>
          let (c2, r) := EthConnection.reloadContracts c1 in
          (mk c2 b, r)
      end
  end.

End Account.

Module BlockWatcher.

(** [blockNumber] is the field of the connection, [published] the values
    sent on [blockNumber$], and [requested] the inclusive ranges
    [(fromBlock, toBlock)] handed to [processEvents] (a ghost field). *)
Record t : Type := mk {
  blockNumber : Z;
  published : list Z;
  requested : list (Z * Z);
}.

(** [onNewBlock]. *)
Definition onNewBlock (s : t) (latestBlockNumber : Z) : t :=
  let previousBlockNumber := blockNumber s in
  mk latestBlockNumber
     (published s ++ [latestBlockNumber])
     (requested s
      ++ [(Z.min (previousBlockNumber + 1) latestBlockNumber, latestBlockNumber)]).

(** [n] consecutive integers from [a]. *)
Definition zrange (a : Z) (n : nat) : list Z :=
  List.map (fun i => a + Z.of_nat i) (seq 0 n).

(** The blocks of an inclusive range. *)
Definition blocksIn (range : Z * Z) : list Z :=
  zrange (fst range) (Z.to_nat (snd range - fst range + 1)).

(** Each notification is for a later block than the one before. *)
Fixpoint increasing (b : Z) (notifications : list Z) : Prop :=
  match notifications with
  | [] => True
  | latest :: rest => b < latest /\ increasing latest rest
  end.

End BlockWatcher.

(** ** Network.js: vocabulary of the properties of the bulk getter *)

(** The width of the chunks that have resolved. *)
Fixpoint resolvedWidth {T : Type} (chunks : list (nat * nat))
         (rs : list (option (list T))) : nat :=
  match chunks, rs with
  | c :: chunks', r :: rs' =>
      ((match r with Some _ => snd c - fst c | None => 0 end)
       + resolvedWidth chunks' rs')%nat
  | _, _ => 0%nat
  end.

(** A fraction between 0 and 1. *)
Definition inUnit (p : Q) : Prop := (0 <= p)%Q /\ (p <= 1)%Q.

(** The counter [loadedSoFar] is the width of the resolved chunks, and
    every fraction reported so far is between 0 and 1. *)
Definition progressOk {T : Type} (total querySize : nat)
           (getterFn : nat -> nat -> list T) (st : Network.Loading) : Prop :=
  Network.wellLoaded getterFn (Network.partition total querySize) st
  /\ Network.loadedSoFar st
     = resolvedWidth (Network.partition total querySize) (Network.resolved st)
  /\ Forall inUnit (Network.progress st).

(** ** TxExecutor.js and Network.js: runs in sequence, [getResult] *)

(** Consecutive runs of [execute], as the executor's queue makes them with
    its concurrency of one: each run starts [gap] milliseconds after the
    one before has ended, in the state it left; a run that hangs keeps the
    queue's only slot, and the later ones do not start. *)
Fixpoint executeAll (heap : gmap TxExecutor.Ref (gmap string TxExecutor.Value))
         (runs : list (TxExecutor.QueuedTransaction * TxExecutor.Env * nat))
         (x : TxExecutor.t) (clock : Z) : list TxExecutor.Frame :=
  match runs with
  | [] => []
  | (tx, env, gap) :: rest =>
      match TxExecutor.execute heap tx env x (clock + Z.of_nat gap) with
      | TxExecutor.Hung f => [f]
      | r =>
          let f := TxExecutor.frameOf r in
          f :: executeAll heap rest (TxExecutor.self f) (TxExecutor.now f)
      end
  end.

(** One callback, seen by [getResult]: the states of [submitted], of
    [confirmed] and of [Promise.all([submitted, confirmed])] mapped to the
    receipt. [Promise.all] rejects as soon as one of the two rejects and
    resolves when both have resolved. *)
Definition getResultStep
           (st : TxExecutor.Promise TxExecutor.TransactionResponse
                 * TxExecutor.Promise TxExecutor.TransactionReceipt
                 * TxExecutor.Promise TxExecutor.TransactionReceipt)
           (c : TxExecutor.Callback) :=
  let '(submitted, confirmed, result) := st in
  let submitted' :=
    match c with
    | TxExecutor.OnSubmissionError e =>
        TxExecutor.settleWith submitted (TxExecutor.Rejected e)
    | TxExecutor.OnTransactionResponse r =>
        TxExecutor.settleWith submitted (TxExecutor.Fulfilled r)
    | _ => submitted
    end in
  let confirmed' :=
    match c with
    | TxExecutor.OnReceiptError e =>
        TxExecutor.settleWith confirmed (TxExecutor.Rejected e)
    | TxExecutor.OnTransactionReceipt r =>
        TxExecutor.settleWith confirmed (TxExecutor.Fulfilled r)
    | _ => confirmed
    end in
  let all :=
    match submitted', confirmed' with
    | TxExecutor.Rejected e, _ => TxExecutor.Rejected e
    | _, TxExecutor.Rejected e => TxExecutor.Rejected e
    | TxExecutor.Fulfilled _, TxExecutor.Fulfilled receipt =>
        TxExecutor.Fulfilled receipt
    | _, _ => TxExecutor.Pending
    end in
  (submitted', confirmed', TxExecutor.settleWith result all).

(** [getResult] of Network.js, after the callbacks [cs]. *)
Definition getResult (cs : list TxExecutor.Callback)
  : TxExecutor.Promise TxExecutor.TransactionReceipt :=
  snd (fold_left getResultStep cs
         (TxExecutor.Pending, TxExecutor.Pending, TxExecutor.Pending)).

(** A run that goes through: started before the nonce is stale, with a
    hook (if there is one) that resolves and a submission that is accepted
    before the timeout. *)
Definition goesThrough (hook : bool)
           (run : TxExecutor.QueuedTransaction * TxExecutor.Env * nat) : Prop :=
  let '(_, env, gap) := run in
  Z.of_nat gap <= TxExecutor.NONCE_STALE_AFTER_MS
  /\ TxExecutor.submitsInTime env = true
  /\ (hook = true -> exists d, TxExecutor.before env = TxExecutor.Resolves d tt).

(** [a <= b] on Numbers; false when either is [NaN]. *)
Definition number_leb (a b : Number) : bool :=
  match a, b with
  | Rl x, Rl y => real_leb x y
  | _, _ => false
  end.

(** ** waitForTransaction (Network.js) *)
Module WaitForTransaction.

(** What a wait has done: the [tries] it logged, in order, and the
    milliseconds it spent awaiting the provider. *)
Record Log : Type := mkLog { tried : list nat; awaited : Z }.

(** What [provider.getTransactionReceipt(txHash)] does: it resolves
    [after] so many milliseconds with a receipt or with [null], it rejects,
    or it never settles. *)
Inductive Answer : Type :=
| Answers (after : nat) (receipt : option TxExecutor.TransactionReceipt)
| Fails (after : nat) (e : Rejection)
| Silent.

(** The rejection of [pTimeout] when no message is given: a
    [TimeoutError], which is an [Error]. *)
Definition TimeoutError : Rejection :=
  AnError "Promise timed out after 30000 milliseconds".

Definition NoReceipt : Rejection := AnError "couldn't get receipt".

(** [pTimeout(promise, ms)]: when the result settles and with what. The
    promise wins if it settles before the timer. *)
Definition pTimeout (p : Answer) (ms : Z)
  : Z * (Rejection + option TxExecutor.TransactionReceipt) :=
  match p with
  | Answers after receipt =>
      if Z.of_nat after <? ms then (Z.of_nat after, inr receipt)
      else (ms, inl TimeoutError)
  | Fails after e =>
      if Z.of_nat after <? ms then (Z.of_nat after, inl e)
      else (ms, inl TimeoutError)
  | Silent => (ms, inl TimeoutError)
  end.

Section Wait.
(** The provider's answer at each attempt. *)
Variable getTransactionReceipt : nat -> Answer.

Definition spend (tries : nat) (ms : Z) (l : Log) : Log :=
  mkLog (tried l ++ [tries]) (awaited l + ms).

(** The function handed to [pRetry]: a receipt is returned, [null] and
    whatever the [catch] receives are rejections. *)
Definition attempt (tries : nat) (l : Log)
  : (Rejection + TxExecutor.TransactionReceipt) * Log :=
  match pTimeout (getTransactionReceipt tries) (30 * 1000) with
  | (ms, inr (Some receipt)) => (inr receipt, spend tries ms l)
  | (ms, inr None) => (inl NoReceipt, spend tries ms l)
  | (ms, inl e) => (inl e, spend tries ms l)
  end.

(** [waitForTransaction]. *)
Definition waitForTransaction (l : Log)
  : (Err + TxExecutor.TransactionReceipt) * Log :=
  pRetry Network.DEFAULT_MAX_CALL_RETRIES 1 [] attempt l.

(** The receipt the provider gives at an attempt, when it gives one
    before the timer. *)
Definition receiptInTime (tries : nat)
  : option TxExecutor.TransactionReceipt :=
  match getTransactionReceipt tries with
  | Answers after (Some receipt) =>
      if Z.of_nat after <? 30000 then Some receipt else None
  | _ => None
  end.

(** The provider rejects at an attempt, before the timer, with a value
    that p-retry does not retry. *)
Definition givesUpAt (tries : nat) : bool :=
  match getTransactionReceipt tries with
  | Fails after (AnError _) => false
  | Fails after _ => Z.of_nat after <? 30000
  | _ => false
  end.
End Wait.

End WaitForTransaction.

(** * Properties *)

(** ** The throttled queue: rate bound *)
Section RateBound.
Import ThrottledConcurrentQueue.

Lemma startsIn_app a b l1 l2 :
  startsIn a b (l1 ++ l2) = (startsIn a b l1 + startsIn a b l2)%nat.
Proof. unfold startsIn. rewrite List.filter_app, length_app. reflexivity. Qed.

Lemma startsIn_le_length a b l : (startsIn a b l <= length l)%nat.
Proof. unfold startsIn. apply List.filter_length_le. Qed.

Lemma startsIn_none a b l :
  Forall (fun s => snd s < a) l -> startsIn a b l = 0%nat.
Proof.
  unfold startsIn. induction 1 as [|s l Hs _ IH]; simpl; [reflexivity|].
  destruct (a <=? snd s) eqn:E; simpl; [lia | exact IH].
Qed.

Lemma dropOutdated_split now W ts :
  exists gone, ts = gone ++ dropOutdated now W ts
               /\ Forall (fun t => t < now - W) gone.
Proof.
  induction ts as [|t ts [gone [E F]]]; simpl.
  - exists []. split; [reflexivity | constructor].
  - destruct (truthy t && (t <? now - W)) eqn:C.
    + exists (t :: gone). split; [simpl; congruence|].
      constructor; [|exact F].
      apply andb_true_iff in C. lia.
    + exists []. split; [reflexivity | constructor].
Qed.

Lemma dateNow_spec w :
  let (now, w1) := dateNow w in
  now = clock w1 /\ clock w <= clock w1 /\ queue w1 = queue w
  /\ started w1 = started w /\ spawns w1 = spawns w.
Proof.
  unfold dateNow. destruct (readings w); simpl; repeat split; lia.
Qed.

Lemma Inv_dateNow R W w : Inv R W w -> Inv R W (snd (dateNow w)).
Proof.
  intros [Hc Hi [gone [E F]] Hp Hs Hr].
  pose proof (dateNow_spec w) as D. destruct (dateNow w) as [now w1].
  destruct D as (_ & Hle & Hq & Hst & _). simpl.
  constructor; rewrite ?Hq, ?Hst; auto.
  - exists gone. split; [exact E|].
    eapply Forall_impl; [|exact F]. simpl. intros. lia.
  - eapply Forall_impl; [|exact Hp]. simpl. intros. lia.
Qed.

Lemma Inv_add R W t w : Inv R W w -> Inv R W (add t w).
Proof. intros [Hc Hi Hsp Hp Hs Hr]. constructor; simpl; auto. Qed.

Lemma Inv_adds R W ts w :
  Inv R W w -> Inv R W (fold_left (fun w' t => add t w') ts w).
Proof.
  revert w. induction ts as [|t ts IH]; simpl; intros w H; [exact H|].
  apply IH, Inv_add, H.
Qed.

Lemma items_adds ts w :
  executionTimestamps (queue (fold_left (fun w' t => add t w') ts w))
  = executionTimestamps (queue w).
Proof. revert w. induction ts as [|t ts IH]; simpl; intros w; [reflexivity|]. rewrite IH. reflexivity. Qed.

Lemma Inv_callStart R W w : Inv R W w -> Inv R W (callStart w).
Proof.
  intros H. unfold callStart. destruct (spawns w) as [|added later]; [exact H|].
  apply Inv_adds. destruct H as [Hc Hi Hsp Hp Hs Hr]. constructor; simpl; auto.
Qed.

Lemma items_callStart w :
  executionTimestamps (queue (callStart w)) = executionTimestamps (queue w).
Proof.
  unfold callStart. destruct (spawns w); [reflexivity|].
  rewrite items_adds. reflexivity.
Qed.

Lemma Inv_settle R W w : Inv R W w -> Inv R W (settle w).
Proof.
  intros H. unfold settle. destruct (0 <? concurrency (queue w)); [|exact H].
  destruct H as [Hc Hi Hsp Hp Hs Hr]. constructor; simpl; auto.
Qed.

Lemma Inv_delete R W w :
  Inv R W w -> Inv R W (deleteOutdatedExecutionTimestamps w).
Proof.
  intros H. unfold deleteOutdatedExecutionTimestamps.
  pose proof (Inv_dateNow R W w H) as H1.
  pose proof (dateNow_spec w) as D.
  destruct (dateNow w) as [now w1]. simpl in H1.
  destruct D as (Hnow & _).
  destruct H1 as [Hc Hi [gone [E F]] Hp Hs Hr].
  destruct (dropOutdated_split now (invocationIntervalMs (queue w1))
              (CircularBuffer.items (executionTimestamps (queue w1))))
    as [gone' [E' F']].
  constructor; simpl; auto.
  - exists (gone ++ gone'). split.
    + rewrite E. rewrite E' at 1. rewrite app_assoc. reflexivity.
    + apply Forall_app. split; [exact F|].
      rewrite Hi, Hnow in F'. exact F'.
  - unfold CircularBuffer.size in *. simpl.
    rewrite E' in Hs. rewrite length_app in Hs. lia.
Qed.

Lemma startsIn_recent R W w a :
  Inv R W w -> clock w - W <= a ->
  Z.of_nat (startsIn a (a + W) (started w))
  <= CircularBuffer.size (executionTimestamps (queue w)).
Proof.
  intros [_ _ [gone [E F]] _ _ _] Ha.
  apply map_eq_app in E. destruct E as (l1 & l2 & -> & E1 & E2).
  rewrite startsIn_app, startsIn_none.
  - unfold CircularBuffer.size. rewrite <- E2, length_map.
    pose proof (startsIn_le_length a (a + W) l2). lia.
  - subst gone. rewrite Forall_map in F.
    eapply Forall_impl; [|exact F]. simpl. intros. lia.
Qed.

Lemma Inv_next R W w :
  0 <= W -> Inv R W w ->
  CircularBuffer.size (executionTimestamps (queue w)) < R ->
  Inv R W (next w)
  /\ CircularBuffer.size (executionTimestamps (queue (next w)))
     <= CircularBuffer.size (executionTimestamps (queue w)) + 1.
Proof.
  intros HW H Hlt. unfold next.
  destruct (pop (taskQueue (queue w))) as [[task rest]|]; [|split; [exact H | lia]].
  set (w0 := set_queue w (set_taskQueue (queue w) rest)).
  assert (H0 : Inv R W w0).
  { destruct H as [Hc Hi Hsp Hp Hs Hr]. constructor; simpl; auto. }
  assert (Hsz0 : executionTimestamps (queue w0) = executionTimestamps (queue w))
    by reflexivity.
  pose proof (Inv_dateNow R W w0 H0) as H1.
  pose proof (dateNow_spec w0) as D.
  destruct (dateNow w0) as [now w1]. simpl in H1.
  destruct D as (Hnow & Hle & Hq & Hst & _).
  rewrite items_callStart. simpl.
  assert (Hpush : CircularBuffer.push (executionTimestamps (queue w1)) now
                  = CircularBuffer.mk R
                      (CircularBuffer.items (executionTimestamps (queue w1)) ++ [now])).
  { unfold CircularBuffer.push. rewrite Hq, Hsz0.
    destruct (Z.eqb_spec (CircularBuffer.size (executionTimestamps (queue w)))
                (CircularBuffer.capacity (executionTimestamps (queue w)))) as [e|_].
    - rewrite (inv_cap _ _ _ H) in e. lia.
    - rewrite (inv_cap _ _ _ H). reflexivity. }
  rewrite Hpush.
  assert (Hsize : CircularBuffer.size
                    (CircularBuffer.mk R
                       (CircularBuffer.items (executionTimestamps (queue w1)) ++ [now]))
                  = CircularBuffer.size (executionTimestamps (queue w)) + 1).
  { unfold CircularBuffer.size. simpl. rewrite length_app, Hq, Hsz0. simpl. lia. }
  split; [|lia].
  apply Inv_callStart.
  pose proof (startsIn_recent R W w1) as Hrec.
  destruct H1 as [Hc Hi [gone [E F]] Hp Hs Hr].
  constructor; simpl; rewrite ?Hpush; simpl; auto.
  - exists gone. split; [|exact F].
    rewrite map_app, E, app_assoc. reflexivity.
  - apply Forall_app. split; [exact Hp|].
    constructor; [simpl; lia | constructor].
  - rewrite Hsize. lia.
  - intros a. rewrite startsIn_app.
    unfold startsIn at 2. simpl.
    destruct ((a <=? now) && (now <=? a + W)) eqn:In; simpl.
    + assert (Ha : clock w1 - W <= a) by (apply andb_true_iff in In; lia).
      specialize (Hrec a (mkInv R W w1 Hc Hi (ex_intro _ gone (conj E F)) Hp Hs Hr) Ha).
      rewrite Hq, Hsz0 in Hrec. lia.
    + specialize (Hr a). lia.
Qed.

Lemma Inv_iter_next R W n w :
  0 <= W -> Inv R W w ->
  CircularBuffer.size (executionTimestamps (queue w)) + Z.of_nat n <= R ->
  Inv R W (Nat.iter n next w)
  /\ CircularBuffer.size (executionTimestamps (queue (Nat.iter n next w)))
     <= CircularBuffer.size (executionTimestamps (queue w)) + Z.of_nat n.
Proof.
  intros HW H. induction n as [|n IH]; intros Hn; simpl.
  - split; [exact H | lia].
  - destruct IH as [Hi Hs]; [lia|].
    destruct (Inv_next R W _ HW Hi) as [Hi' Hs']; [lia|].
    split; [exact Hi' | lia].
Qed.

Lemma Inv_scheduleWake R W w : Inv R W w -> Inv R W (scheduleWake w).
Proof.
  intros H. unfold scheduleWake, nextPossibleExecution.
  destruct (CircularBuffer.peekFirst (executionTimestamps (queue w))) as [old|];
    [|exact H].
  destruct (negb (truthy old) || limit_is0 (concurrencyQuotaRemaining (queue w)));
    [exact H|].
  pose proof (Inv_dateNow R W w H) as H1.
  destruct (dateNow w) as [now w1]. simpl in H1.
  destruct ((0 <? size (queue w1)) && truthy (now - old + invocationIntervalMs (queue w)));
    [|exact H1].
  destruct H1 as [Hc Hi Hsp Hp Hs Hr]. constructor; simpl; auto.
Qed.

Lemma min3_le_first a l b : min3 a l b <= a.
Proof. unfold min3. destruct l; lia. Qed.

Lemma Inv_executeNextTasks R W w :
  0 <= W -> Inv R W w -> Inv R W (executeNextTasks w).
Proof.
  intros HW H. unfold executeNextTasks.
  apply Inv_scheduleWake.
  pose proof (Inv_delete R W w H) as H1.
  apply Inv_iter_next; [exact HW | exact H1 |].
  pose proof (min3_le_first
                (throttleQuotaRemaining (queue (deleteOutdatedExecutionTimestamps w)))
                (concurrencyQuotaRemaining (queue (deleteOutdatedExecutionTimestamps w)))
                (size (queue (deleteOutdatedExecutionTimestamps w)))) as Hm.
  unfold tasksToExecute. unfold throttleQuotaRemaining in *.
  rewrite (inv_cap _ _ _ H1) in *.
  pose proof (inv_size _ _ _ H1). lia.
Qed.

Lemma Inv_step R W w e : 0 <= W -> Inv R W w -> Inv R W (step w e).
Proof.
  intros HW H. destruct e as [t | ds sp | | h ds sp]; simpl.
  - apply Inv_add, H.
  - apply Inv_executeNextTasks; [exact HW|].
    destruct H as [Hc Hi Hsp Hp Hs Hr]. constructor; simpl; auto.
  - apply Inv_settle, H.
  - destruct (existsb _ _); [|exact H].
    apply Inv_executeNextTasks; [exact HW|].
    destruct H as [Hc Hi Hsp Hp Hs Hr]. constructor; simpl; auto.
Qed.

Lemma Inv_run R W trace w : 0 <= W -> Inv R W w -> Inv R W (run w trace).
Proof.
  intros HW. revert w. unfold run.
  induction trace as [|e trace IH]; simpl; intros w H; [exact H|].
  apply IH, Inv_step; assumption.
Qed.

Lemma new_inr R W C q :
  new R W C = inr q ->
  0 < R /\ 0 < W
  /\ q = mkQueue [] 0 W C (CircularBuffer.create R) None.
Proof.
  unfold new. destruct (Z.leb_spec R 0); [discriminate|].
  destruct (Z.leb_spec W 0); [discriminate|].
  destruct (limit_le0 C); [discriminate|].
  intros [= <-]. repeat split; lia.
Qed.

Lemma Inv_boot R W C q t0 : new R W C = inr q -> Inv R W (boot q t0).
Proof.
  intros Hn. apply new_inr in Hn. destruct Hn as (HR & HW & ->).
  constructor; simpl; auto.
  - exists []. split; [reflexivity | constructor].
  - unfold CircularBuffer.size. simpl. lia.
  - intros a. unfold startsIn. simpl. lia.
Qed.

(** C1. For every queue constructed with parameters [(R, W, C)], every
    starting time and every trace of add, tick, completion and timer
    events, every closed window [[a, a + W]] holds at most [R] task
    starts. *)
Theorem rate_bound (R W : Z) (C : Limit) (q : Queue) (t0 : Z)
        (trace : list Event) (a : Z) :
  new R W C = inr q ->
  Z.of_nat (startsIn a (a + W) (started (run (boot q t0) trace))) <= R.
Proof.
  intros Hn.
  assert (HW : 0 <= W) by (apply new_inr in Hn; lia).
  apply (inv_rate R W), Inv_run; [exact HW|].
  eapply Inv_boot, Hn.
Qed.

End RateBound.

(** The bound is about real starts: on this trace two tasks start at once
    and the third one only after the interval has passed. *)
Example rate_bound_scenario :
  let q := ThrottledConcurrentQueue.mkQueue [] 0 1000 Infinity
             (CircularBuffer.create 2) None in
  ThrottledConcurrentQueue.new 2 1000 Infinity = inr q
  /\ ThrottledConcurrentQueue.started
       (ThrottledConcurrentQueue.run (ThrottledConcurrentQueue.boot q 0)
          [ThrottledConcurrentQueue.Add 1%nat;
           ThrottledConcurrentQueue.Add 2%nat;
           ThrottledConcurrentQueue.Add 3%nat;
           ThrottledConcurrentQueue.Tick [5%nat] [];
           ThrottledConcurrentQueue.Tick [1000%nat] [];
           ThrottledConcurrentQueue.Tick [1%nat] []])
     = [(1%nat, 5); (2%nat, 5); (3%nat, 1006)].
Proof. split; reflexivity. Qed.

Lemma rate_bound_witness :
  let q := ThrottledConcurrentQueue.mkQueue [] 0 1000 Infinity
             (CircularBuffer.create 2) None in
  ThrottledConcurrentQueue.new 2 1000 Infinity = inr q
  /\ Z.of_nat
       (ThrottledConcurrentQueue.startsIn 5 (5 + 1000)
          (ThrottledConcurrentQueue.started
             (ThrottledConcurrentQueue.run (ThrottledConcurrentQueue.boot q 0)
                [ThrottledConcurrentQueue.Add 1%nat;
                 ThrottledConcurrentQueue.Add 2%nat;
                 ThrottledConcurrentQueue.Add 3%nat;
                 ThrottledConcurrentQueue.Tick [5%nat] [];
                 ThrottledConcurrentQueue.Tick [1000%nat] [];
                 ThrottledConcurrentQueue.Tick [1%nat] []]))) <= 2.
Proof.
  split; [reflexivity|].
  apply (rate_bound 2 1000 Infinity). reflexivity.
Defined.

(** ** The throttled queue: the wake-up delay *)
Section WakeDelay.
Import ThrottledConcurrentQueue.

(** What [nextPossibleExecution] computes is [now - oldest + interval]. It
    is the documented delay only when no time has passed since the oldest
    start. *)
Lemma nextPossibleExecution_delay w oldest rest :
  CircularBuffer.items (executionTimestamps (queue w)) = oldest :: rest ->
  truthy oldest = true ->
  limit_is0 (concurrencyQuotaRemaining (queue w)) = false ->
  fst (nextPossibleExecution w)
  = Some (fst (dateNow w) - oldest + invocationIntervalMs (queue w)).
Proof.
  intros Hi Ht Hc. unfold nextPossibleExecution, CircularBuffer.peekFirst.
  rewrite Hi. simpl. rewrite Ht, Hc. simpl.
  destruct (dateNow w). reflexivity.
Qed.

(** C6. A queue [(1, 100, Infinity)] starts its first task at time 1000 and
    runs the next scheduling tick at time 1050 with one task still queued:
    the tick ends with a task queued, a timestamp in the ring and
    concurrency quota left.  The single pending wake-up it leaves has a
    delay of 150 ms, where [(oldest + interval) - now] is 50 ms. *)
Theorem wake_delay_is_not_the_soonest :
  let q := mkQueue [] 0 100 Infinity (CircularBuffer.create 1) None in
  let w := run (boot q 1000) [Add 1%nat; Add 2%nat; Tick [] []; Tick [50%nat] []] in
  new 1 100 Infinity = inr q
  /\ taskQueue (queue w) = [2%nat]
  /\ CircularBuffer.items (executionTimestamps (queue w)) = [1000]
  /\ limit_is0 (concurrencyQuotaRemaining (queue w)) = false
  /\ clock w = 1050
  /\ timers w = [(1%nat, 150)]
  /\ executionTimeout (queue w) = Some 1%nat
  /\ soonestFromNow 1000 100 1050 = 50.
Proof. repeat split; reflexivity. Qed.

End WakeDelay.

(** ** The transaction executor *)
Section Executor.
Import TxExecutor.

Lemma carriedNonce_withNonce request n :
  carriedNonce (withNonce request n) = Some (nonceValue n).
Proof. unfold carriedNonce, withNonce. apply lookup_insert_eq. Qed.

Local Opaque withNonce requestWithDefaults.

Ltac run_execute :=
  unfold execute, tryCatch, tryBlock, catchBlock, submitTransaction,
    maybeUpdateNonce, bind, get, update, fire, ret, await, pTimeout, enter;
  simpl.

(** Case analysis on everything the environment and the executor decide
    in one run of [execute]. *)
Ltac by_cases env x clock :=
  destruct x as [[n0|] last hook q pend]; simpl;
  try destruct (NONCE_STALE_AFTER_MS <? clock - last) eqn:Hstale; simpl;
  try (destruct (getNonce env) as [dn [n1|]|dn en|] eqn:Hget; simpl);
  destruct hook; simpl;
  try (destruct (before env) as [db []|db eb|] eqn:Hbefore; simpl);
  try (destruct (submit env) as [ds r|ds es|] eqn:Hsubmit; simpl;
       try (destruct (Z.of_nat ds <? TX_SUBMIT_TIMEOUT) eqn:Hintime; simpl)).

Ltac finish :=
  repeat split; intros; simpl in *; try discriminate; try tauto;
  try congruence; eauto.

(** What a run of [execute] that reached the contract method leaves
    behind. *)
Lemma execute_sent heap tx env x clock request :
  In request (sent (frameOf (execute heap tx env x clock))) ->
  sent (frameOf (execute heap tx env x clock)) = [request]
  /\ (submitsInTime env = true ->
      forall n, carriedNonce request = Some (VInt n) ->
                nonce (self (frameOf (execute heap tx env x clock))) = Some (n + 1))
  /\ (submitsInTime env = false ->
      carriedNonce request
      = Some (nonceValue (nonce (self (frameOf (execute heap tx env x clock)))))
      /\ lastTransactionTimestamp (self (frameOf (execute heap tx env x clock)))
         = lastTransactionTimestamp x
      /\ exists e, fired (frameOf (execute heap tx env x clock))
                   = [OnSubmissionError e])
  /\ (refreshDue x clock = false ->
      carriedNonce request = Some (nonceValue (nonce x))).
Proof.
  unfold submitsInTime, refreshDue. revert request.
  run_execute.
  by_cases env x clock; intros request Hin;
    try (destruct Hin as [<-|[]]; rewrite carriedNonce_withNonce);
    try contradiction; finish.
Qed.

(** The request of a run is the overrides over the defaults with the
    nonce the executor has once [maybeUpdateNonce] is through: what the
    chain returned when the refresh was due, unless that is [undefined],
    and the executor's own nonce otherwise. *)
Lemma execute_carries heap tx env x clock request :
  In request (sent (frameOf (execute heap tx env x clock))) ->
  exists n,
    request = withNonce (requestWithDefaults heap tx) n
    /\ (refreshDue x clock = false -> n = nonce x)
    /\ (refreshDue x clock = true ->
        forall d a, getNonce env = Resolves d a ->
                    n = match a with Some m => Some m | None => nonce x end).
Proof.
  unfold refreshDue. revert request.
  run_execute.
  by_cases env x clock; intros request Hin; try contradiction;
    destruct Hin as [<-|[]]; eexists; (split; [reflexivity|]);
    (split; [intros Hd; try discriminate; reflexivity
            | intros Hd d a Ha; try discriminate;
              injection Ha as <- <-; reflexivity]).
Qed.

(** [getNonce] is called at most once in a run, and only when the nonce
    is unknown or stale. *)
Lemma execute_nonceQueries heap tx env x clock :
  nonceQueries (frameOf (execute heap tx env x clock))
  = if refreshDue x clock then 1%nat else 0%nat.
Proof.
  unfold refreshDue. run_execute. by_cases env x clock; reflexivity.
Qed.

(** After a submission that timed out, 30 s have passed with no new
    submission time recorded: the refresh of the nonce is due at once. *)
Lemma refresh_due_after_timeout heap tx env x clock request :
  lastTransactionTimestamp x <= clock ->
  submit env = Never ->
  In request (sent (frameOf (execute heap tx env x clock))) ->
  refreshDue (self (frameOf (execute heap tx env x clock)))
    (now (frameOf (execute heap tx env x clock))) = true.
Proof.
  unfold refreshDue. intros Hlast Hnever. revert request.
  run_execute. rewrite Hnever.
  destruct x as [[n0|] last hook q pend]; simpl in *;
    try destruct (NONCE_STALE_AFTER_MS <? clock - last) eqn:Hstale; simpl;
    try (destruct (getNonce env) as [dn [n1|]|dn en|]; simpl);
    destruct hook; simpl;
    try (destruct (before env) as [db []|db eb|]; simpl);
    intros request Hin; try contradiction;
    try reflexivity;
    apply Z.ltb_lt; unfold NONCE_STALE_AFTER_MS, TX_SUBMIT_TIMEOUT; lia.
Qed.

(** The [try] block ends in one of three ways: the response callback was
    called and the confirmation is awaited, or it threw before the
    submission time was recorded, or it hangs; in the last two cases no
    callback was called. *)
Lemma tryBlock_cases heap tx env x clock :
  match tryBlock heap tx env (enter x clock) with
  | Done f _ =>
      exists r, fired f = [OnTransactionResponse r] /\ waiting f = Some (hash r)
  | Thrown f _ => fired f = [] /\ time_submitted f = None /\ waiting f = None
  | Hung f => fired f = [] /\ waiting f = None
  end.
Proof.
  unfold tryBlock, submitTransaction, maybeUpdateNonce, bind, get, update,
    fire, ret, await, pTimeout, enter; simpl.
  by_cases env x clock; eauto.
Qed.



End Executor.

(** The callbacks do fire: a submission that times out calls
    [onSubmissionError] and leaves [confirmed] pending; an accepted one whose
    receipt wait fails calls [onTransactionResponse], then
    [onReceiptError]. *)
Example callbacks_scenarios :
  let c := EthConnection.mkContract "0xc" (Network.makeProvider "http://rpc") None in
  let tx := TxExecutor.mkTx "a1" c "move" [] 0%nat in
  let x := TxExecutor.set_nonce (Some 42) (TxExecutor.new 1000 false) in
  TxExecutor.callbacks ∅ tx
    (TxExecutor.mkEnv TxExecutor.Never TxExecutor.Never TxExecutor.Never
       (TxExecutor.Resolves 10 (TxExecutor.mkReceipt 1))) x 2000
  = [TxExecutor.OnSubmissionError "tx request a1 failed to submit: timed out}"]
  /\ TxExecutor.callbacks ∅ tx
       (TxExecutor.mkEnv TxExecutor.Never TxExecutor.Never
          (TxExecutor.Resolves 30 (TxExecutor.mkResponse "0xh"))
          (TxExecutor.Rejects 10 "no receipt")) x 2000
     = [TxExecutor.OnTransactionResponse (TxExecutor.mkResponse "0xh");
        TxExecutor.OnReceiptError "no receipt"].
Proof. split; reflexivity. Qed.



(** On that input the refresh is due, the chain answers 42 while the
    executor held 43, the request carries 42, the submission is rejected
    and the executor's nonce stays at 42. *)
Example refreshed_nonce_is_carried :
  let c := EthConnection.mkContract "0xc" (Network.makeProvider "http://rpc") None in
  let tx := TxExecutor.mkTx "a1" c "move" [] 0%nat in
  let x := TxExecutor.set_nonce (Some 43) (TxExecutor.new 1000 false) in
  let env := TxExecutor.mkEnv (TxExecutor.Resolves 10 (Some 42)) TxExecutor.Never
               (TxExecutor.Rejects 20 "nonce too low")
               TxExecutor.Never in
  let f := TxExecutor.frameOf (TxExecutor.execute ∅ tx env x 32000) in
  TxExecutor.refreshDue x 32000 = true
  /\ TxExecutor.submitsInTime env = false
  /\ List.map TxExecutor.carriedNonce (TxExecutor.sent f)
     = [Some (TxExecutor.VInt 42)]
  /\ TxExecutor.nonce (TxExecutor.self f) = Some 42
  /\ TxExecutor.fired f = [TxExecutor.OnSubmissionError "nonce too low"].
Proof. repeat split; reflexivity. Qed.

(** ** queueTransaction and the caller's overrides *)
Section QueueTransaction.
Import TxExecutor.
Variable gweiToWei : Number -> Err + Z.


(** When the conversion throws, so does [queueTransaction]: nothing is
    written and nothing is enqueued. *)
Lemma queueTransaction_throws conn setting aid c m args ref x heap
      (o : gmap string Value) e :
  heap !! ref = Some o ->
  isUndefined o "gasPrice" = true ->
  gweiToWei (EthConnection.getAutoGasPriceGwei
               (EthConnection.getAutoGasPrices conn) setting) = inl e ->
  queueTransaction gweiToWei conn setting aid c m args (Some ref) x heap
  = (inl e, x, heap).
Proof.
  intros Ho Hu Hw. unfold queueTransaction. rewrite Ho. simpl.
  rewrite Hu, Hw. reflexivity.
Qed.
End QueueTransaction.



(** On that input the caller's object ends up with a gas price of 3 gwei in
    wei, next to the gas limit it already had. *)
Example queueTransaction_writes_gas_price :
  let c := EthConnection.mkContract "0xc" (Network.makeProvider "http://rpc") None in
  let o : gmap string TxExecutor.Value :=
    {[ "gasLimit"%string := TxExecutor.VInt 100000 ]} in
  let heap' :=
    snd (TxExecutor.queueTransaction exampleGweiToWei exampleConnection
           "Average" "a1" c "move" [] (Some 7%nat) (TxExecutor.new 1000 false)
           {[ 7%nat := o ]}) in
  (heap' !! 7%nat) ≫= (fun o' => o' !! "gasPrice"%string)
  = Some (TxExecutor.VBigNumber 3000000000)
  /\ (heap' !! 7%nat) ≫= (fun o' => o' !! "gasLimit"%string)
     = Some (TxExecutor.VInt 100000).
Proof. split; vm_compute; reflexivity. Qed.

(** ** The contract caller *)
Section Caller.
Import ContractCaller.
Context {A : Type}.
Variable contractViewFunction : nat -> Rejection + A.

Lemma attempt_queue n c :
  queue (snd (attempt contractViewFunction n c)) = queue c
  /\ invoked (snd (attempt contractViewFunction n c)) = invoked c ++ [n].
Proof.
  unfold attempt. destruct (contractViewFunction n); simpl; auto.
Qed.

Lemma pRetry_attempt_queue retries n errors c :
  queue (snd (pRetry retries n errors (attempt contractViewFunction) c))
  = queue c
  /\ exists more,
      invoked (snd (pRetry retries n errors (attempt contractViewFunction) c))
      = invoked c ++ n :: more.
Proof.
  revert n errors c. induction retries as [|r IH]; intros n errors c; simpl;
    pose proof (attempt_queue n c) as [Hq Hi];
    destruct (attempt contractViewFunction n c) as [[[e|e|e|e]|v] c1];
    simpl in *;
    try (split; [exact Hq|]; exists []; exact Hi).
  destruct (IH (S n) (errors ++ [e]) c1) as [Hq' [more Hi']].
  split; [congruence|].
  exists (S n :: more). rewrite Hi', Hi, <- app_assoc. reflexivity.
Qed.

(** C3. Whatever the view function does, [makeCall] calls it itself, at
    least once, and leaves the throttled queue as it found it: no task is
    added to it and none is started by it. *)
Theorem makeCall_bypasses_queue (c : t) :
  let c' := snd (makeCall contractViewFunction c) in
  queue c' = queue c
  /\ ThrottledConcurrentQueue.size (ThrottledConcurrentQueue.queue (queue c'))
     = ThrottledConcurrentQueue.size (ThrottledConcurrentQueue.queue (queue c))
  /\ ThrottledConcurrentQueue.started (queue c')
     = ThrottledConcurrentQueue.started (queue c)
  /\ exists more, invoked c' = invoked c ++ 1%nat :: more.
Proof.
  unfold makeCall.
  pose proof (pRetry_attempt_queue (maxRetries c) 1 [] c) as [Hq Hi].
  destruct (pRetry (maxRetries c) 1 [] (attempt contractViewFunction) c)
    as [r c1].
  simpl in *. repeat split; [congruence .. | exact Hi].
Qed.
End Caller.

(** With the default queue [(10, 100, 20)] and a view function that fails
    twice: three calls of the view function, an empty queue and no task
    start. *)
Example makeCall_scenario :
  let c := ContractCaller.new 0 None None in
  let r := ContractCaller.makeCall
             (fun n => if (n <? 3)%nat then inl (AnError "rpc error")
                       else inr n) c in
  fst r = inr 3%nat
  /\ ContractCaller.invoked (snd r) = [1%nat; 2%nat; 3%nat]
  /\ ThrottledConcurrentQueue.taskQueue
       (ThrottledConcurrentQueue.queue (ContractCaller.queue (snd r))) = []
  /\ ThrottledConcurrentQueue.started (ContractCaller.queue (snd r)) = [].
Proof. repeat split; reflexivity. Qed.

(** A view function that rejects with a [TypeError] is not called again;
    and when the retries are used up the error reported is the most
    frequent one, here the one of the first two attempts and not the
    last. *)
Example makeCall_rejections :
  let c := ContractCaller.new 0 None (Some 2%nat) in
  let r1 := ContractCaller.makeCall
              (fun n => inl (ATypeError "f is not a function") : Rejection + nat)
              c in
  let r2 := ContractCaller.makeCall
              (fun n => (if (n <? 3)%nat then inl (AnError "rpc error")
                         else inl (AnError "rate limited")) : Rejection + nat)
              c in
  fst r1 = inl "f is not a function"%string
  /\ ContractCaller.invoked (snd r1) = [1%nat]
  /\ fst r2 = inl "rpc error"%string
  /\ ContractCaller.invoked (snd r2) = [1%nat; 2%nat; 3%nat].
Proof. repeat split; reflexivity. Qed.

(** ** The contract registry *)

(** C5. A connection on [https://old.example] holds one loader, at [0xA].
    After [setRpcUrl "https://new.example"] the provider is the new one, and
    the handle registered at [0xA] is connected to the old one: it is not
    what the loader gives against the current provider. *)
Theorem setRpcUrl_keeps_old_provider_handles :
  let c' := fst (EthConnection.setRpcUrl "https://new.example" exampleConnection) in
  snd (EthConnection.setRpcUrl "https://new.example" exampleConnection) = None
  /\ EthConnection.provider c' = Network.makeProvider "https://new.example"
  /\ EthConnection.contracts c' !! "0xA"%string
     = Some (EthConnection.mkContract "0xA"
               (Network.makeProvider "https://old.example") None)
  /\ EthConnection.createContract "0xA" (EthConnection.provider c')
       (EthConnection.signer c')
     = inr (EthConnection.mkContract "0xA"
              (Network.makeProvider "https://new.example") None)
  /\ Network.makeProvider "https://old.example"
     <> Network.makeProvider "https://new.example".
Proof.
  split; [reflexivity|]. split; [reflexivity|].
  split; [vm_compute; reflexivity|]. split; [reflexivity|].
  discriminate.
Qed.

(** In general the handles [reloadContracts] stores are those the loaders
    give against the provider the connection has when it is called, and
    [setRpcUrl] calls it before assigning the new provider. *)
Lemma setRpcUrl_single_loader url c addr (loader : EthConnection.Loader) h :
  EthConnection.loaders c = [(addr, loader)] ->
  loader addr (EthConnection.provider c) (EthConnection.signer c) = inr h ->
  EthConnection.contracts (fst (EthConnection.setRpcUrl url c)) !! addr = Some h
  /\ EthConnection.provider (fst (EthConnection.setRpcUrl url c))
     = Network.makeProvider url.
Proof.
  intros Hl Hh. unfold EthConnection.setRpcUrl, EthConnection.reloadContracts.
  rewrite Hl. simpl. rewrite Hh. simpl. split; [|reflexivity].
  apply lookup_insert_eq.
Qed.

(** ** The gas price oracle client *)
Section Oracle.
Import xDaiApi.
Variable MAX : Q.
Variable DEFAULT : GasPrices.
Hypothesis MAX_ge_1 : (1 <= MAX)%Q.

Lemma Qle_bool_false x y : Qle_bool x y = false -> (y < x)%Q.
Proof.
  intros H. apply Qnot_le_lt. intros Hle.
  apply Qle_bool_iff in Hle. congruence.
Qed.

Lemma clamp_inRange x : isNaN x = false -> inRange MAX (clamp MAX x).
Proof.
  destruct x as [|[| q |]]; [discriminate | | |]; intros _;
    unfold clamp, Math_max, Math_min, num; simpl.
  - exists 1%Q. repeat split; [apply Qle_refl | exact MAX_ge_1].
  - destruct (Qle_bool MAX q) eqn:E1.
    + assert (E : Qle_bool 1 MAX = true) by (apply Qle_bool_iff, MAX_ge_1).
      simpl. rewrite E. exists MAX. repeat split; [exact MAX_ge_1 | apply Qle_refl].
    + simpl. apply Qle_bool_false in E1. destruct (Qle_bool 1 q) eqn:E2.
      * exists q. apply Qle_bool_iff in E2.
        repeat split; [exact E2 | apply Qlt_le_weak, E1].
      * exists 1%Q. repeat split; [apply Qle_refl | exact MAX_ge_1].
  - assert (E : Qle_bool 1 MAX = true) by (apply Qle_bool_iff, MAX_ge_1).
    rewrite E. exists MAX. repeat split; [exact MAX_ge_1 | apply Qle_refl].
Qed.

(** A value already in the interval is kept by the clamp. *)
Lemma clamp_keeps q :
  (1 <= q)%Q -> (q < MAX)%Q -> clamp MAX (num q) = num q.
Proof.
  intros H1 H2. unfold clamp, Math_max, Math_min, num. simpl.
  destruct (Qle_bool MAX q) eqn:E.
  - apply Qle_bool_iff in E. exfalso. apply (Qlt_not_le _ _ H2 E).
  - simpl. apply Qle_bool_iff in H1. rewrite H1. reflexivity.
Qed.

(** C7. [getAutoGasPrices] never raises.  When the request or the parsing
    fails, or the body is not an object, it returns the defaults.  When
    the body is an object, each of [slow], [average] and [fast] is the
    clamp of the number found under that name, or of its default when
    there is no number there, and lies between 1 and the maximum. *)
Theorem getAutoGasPrices_sanitizes (r : Response) :
  isNaN (slow DEFAULT) = false ->
  isNaN (average DEFAULT) = false ->
  isNaN (fast DEFAULT) = false ->
  exists prices,
    getAutoGasPrices MAX DEFAULT r = inr prices
    /\ match r with
       | Body (PObject props) =>
           let cleaned (name : string) (dflt : Number) :=
             Math_max (num 1)
               (Math_min (num MAX)
                  (match props !! name with
                   | Some (JNumber x) => Rl x
                   | _ => dflt
                   end)) in
           slow prices = cleaned "slow"%string (slow DEFAULT)
           /\ average prices = cleaned "average"%string (average DEFAULT)
           /\ fast prices = cleaned "fast"%string (fast DEFAULT)
           /\ inRange MAX (slow prices)
           /\ inRange MAX (average prices)
           /\ inRange MAX (fast prices)
       | _ => prices = DEFAULT
       end.
Proof.
  intros Hs Ha Hf. unfold getAutoGasPrices.
  destruct r as [e|e|[|v|props]]; simpl; eauto.
  eexists. split; [reflexivity|]. simpl.
  assert (Hn : forall name dflt, isNaN dflt = false ->
                                 isNaN (numberOr props name dflt) = false).
  { intros name dflt Hd. unfold numberOr.
    destruct (props !! name) as [[]|]; auto. }
  repeat split; try reflexivity; apply clamp_inRange, Hn; assumption.
Qed.
End Oracle.

Lemma getAutoGasPrices_sanitizes_witness :
  let MAX := 100%Q in
  let DEFAULT := mkGasPrices (num 1) (num 3) (num 10) in
  let props : gmap string xDaiApi.Json :=
    <["slow"%string := xDaiApi.JString "x"]>
      (<["average"%string := xDaiApi.JNumber (Rat 500000)]>
         (<["fast"%string := xDaiApi.JNumber (Rat 7)]> ∅)) in
  (1 <= MAX)%Q
  /\ isNaN (slow DEFAULT) = false
  /\ isNaN (average DEFAULT) = false
  /\ isNaN (fast DEFAULT) = false
  /\ exists prices,
      xDaiApi.getAutoGasPrices MAX DEFAULT (xDaiApi.Body (xDaiApi.PObject props))
      = inr prices
      /\ (let cleaned (name : string) (dflt : Number) :=
            Math_max (num 1)
              (Math_min (num MAX)
                 (match props !! name with
                  | Some (xDaiApi.JNumber x) => Rl x
                  | _ => dflt
                  end)) in
          slow prices = cleaned "slow"%string (slow DEFAULT)
          /\ average prices = cleaned "average"%string (average DEFAULT)
          /\ fast prices = cleaned "fast"%string (fast DEFAULT)
          /\ xDaiApi.inRange MAX (slow prices)
          /\ xDaiApi.inRange MAX (average prices)
          /\ xDaiApi.inRange MAX (fast prices)).
Proof.
  intros MAX DEFAULT props.
  assert (H : (1 <= MAX)%Q) by (unfold MAX; discriminate).
  split; [exact H|]. repeat (split; [reflexivity|]).
  exact (getAutoGasPrices_sanitizes MAX DEFAULT H
           (xDaiApi.Body (xDaiApi.PObject props)) eq_refl eq_refl eq_refl).
Defined.

(** The scenario of the specification: [{slow: "x", average: 500000,
    fast: 7}] with a maximum of 100 becomes [{slow: 1, average: 100,
    fast: 7}]. *)
Example getAutoGasPrices_scenario :
  xDaiApi.getAutoGasPrices 100 (mkGasPrices (num 1) (num 3) (num 10))
    (xDaiApi.Body (xDaiApi.PObject
       (<["slow"%string := xDaiApi.JString "x"]>
          (<["average"%string := xDaiApi.JNumber (Rat 500000)]>
             (<["fast"%string := xDaiApi.JNumber (Rat 7)]> ∅)))))
  = inr (mkGasPrices (num 1) (num 100) (num 7)).
Proof. vm_compute. reflexivity. Qed.

(** ** Gas price selection *)

(** C8, as the claim states it, fails: the setting ["Infinity"] is none of
    the three automatic choices and its parsed value is not finite, yet the
    result is that value and not the average price. *)
Lemma infinite_setting_is_returned :
  let prices := mkGasPrices (num 1) (num 3) (num 10) in
  Network.getGasSettingGwei "Infinity" prices = None
  /\ parseFloat "Infinity" = Rl PosInf
  /\ isFinite (parseFloat "Infinity") = false
  /\ EthConnection.getAutoGasPriceGwei prices "Infinity" = Rl PosInf
  /\ EthConnection.getAutoGasPriceGwei prices "Infinity" <> average prices.
Proof.
  split; [reflexivity|]. split; [reflexivity|]. split; [reflexivity|].
  split; [reflexivity|]. discriminate.
Qed.

(** C8, as the code has it. For the settings ["Slow"], ["Average"] and
    ["Fast"] the result is the price of that name.  For any other setting
    it is the value [parseFloat] gives, unless that value is [NaN], in
    which case it is the average price. *)
Theorem getAutoGasPriceGwei_selects (prices : GasPrices) (setting : string) :
  (setting = "Slow"%string ->
   EthConnection.getAutoGasPriceGwei prices setting = slow prices)
  /\ (setting = "Average"%string ->
      EthConnection.getAutoGasPriceGwei prices setting = average prices)
  /\ (setting = "Fast"%string ->
      EthConnection.getAutoGasPriceGwei prices setting = fast prices)
  /\ (setting <> "Slow"%string -> setting <> "Average"%string ->
      setting <> "Fast"%string ->
      (isNaN (parseFloat setting) = false ->
       EthConnection.getAutoGasPriceGwei prices setting = parseFloat setting)
      /\ (isNaN (parseFloat setting) = true ->
          EthConnection.getAutoGasPriceGwei prices setting = average prices)).
Proof.
  unfold EthConnection.getAutoGasPriceGwei, Network.getGasSettingGwei.
  split; [intros ->; reflexivity|].
  split; [intros ->; reflexivity|].
  split; [intros ->; reflexivity|].
  intros H1 H2 H3.
  apply String.eqb_neq in H1, H2, H3. rewrite H1, H2, H3.
  split; intros Hn; rewrite Hn; reflexivity.
Qed.

(** A finite value and an unparsable one. *)
Example getAutoGasPriceGwei_scenarios :
  let prices := mkGasPrices (num 1) (num 3) (num 10) in
  EthConnection.getAutoGasPriceGwei prices "2.5" = num 2.5
  /\ EthConnection.getAutoGasPriceGwei prices "fast" = num 3
  /\ EthConnection.getAutoGasPriceGwei prices "Fast" = num 10.
Proof. repeat split; reflexivity. Qed.

(** ** The bulk getter *)
Section BulkGetter.
Import Network.
Context {T : Type}.
Variable total querySize : nat.
Variable getterFn : nat -> nat -> list T.

Local Abbreviation chunkOf := (Network.chunkOf total querySize).
Local Abbreviation partition := (Network.partition total querySize).
Local Abbreviation getChunk := (Network.getChunk getterFn).
Local Abbreviation wellLoaded := (Network.wellLoaded getterFn).

Hypothesis querySize_pos : (0 < querySize)%nat.
Hypothesis getter_nonempty : forall s e, getterFn s e <> [].

Lemma more_chunks i :
  (i * querySize <? total)%nat = (i <? ceilDiv total querySize)%nat.
Proof.
  unfold ceilDiv.
  destruct (Nat.ltb_spec (i * querySize) total) as [H|H];
    destruct (Nat.ltb_spec i ((total + querySize - 1) / querySize)) as [H'|H'];
    try reflexivity; exfalso.
  - assert (Hle : (S i <= (total + querySize - 1) / querySize)%nat).
    { apply Nat.div_le_lower_bound; nia. }
    lia.
  - pose proof (Nat.Div0.mul_div_le (total + querySize - 1) querySize). nia.
Qed.

Lemma chunksFrom_partition fuel i :
  (ceilDiv total querySize - i <= fuel)%nat ->
  chunksFrom total querySize fuel i
  = Some (List.map chunkOf (seq i (ceilDiv total querySize - i))).
Proof.
  revert i. induction fuel as [|fuel IH]; intros i Hf; simpl;
    rewrite more_chunks;
    destruct (Nat.ltb_spec i (ceilDiv total querySize)) as [Hi|Hi].
  - lia.
  - replace (ceilDiv total querySize - i)%nat with 0%nat by lia. reflexivity.
  - rewrite IH by lia.
    replace (ceilDiv total querySize - i)%nat
      with (S (ceilDiv total querySize - (i + 1)))%nat by lia.
    simpl. replace (S i) with (i + 1)%nat by lia. reflexivity.
  - replace (ceilDiv total querySize - i)%nat with 0%nat by lia. reflexivity.
Qed.

Lemma settleChunk_spec chunks wp i st :
  wellLoaded chunks st ->
  let st' := settleChunk total getterFn chunks wp i st in
  wellLoaded chunks st'
  /\ (forall j v, resolved st !! j = Some (Some v) ->
                  resolved st' !! j = Some (Some v))
  /\ (forall c, chunks !! i = Some c ->
                resolved st' !! i = Some (Some (getChunk c)))
  /\ (wp = false -> progress st' = progress st).
Proof.
  intros [Hlen Hall]. unfold settleChunk.
  destruct (chunks !! i) as [[start end_]|] eqn:Hc; simpl.
  2:{ repeat split; auto; discriminate. }
  destruct (Hall i _ Hc) as [Hi|Hi]; rewrite Hi; simpl.
  - unfold getChunk in *. simpl in *.
    destruct (getterFn start end_) as [|t ts] eqn:Hg;
      [exfalso; exact (getter_nonempty _ _ Hg)|].
    assert (Hlt : (i < length (resolved st))%nat)
      by (apply lookup_lt_is_Some; eauto).
    repeat split; simpl.
    + rewrite length_insert. exact Hlen.
    + intros j c Hj. destruct (decide (i = j)) as [<-|Hne].
      * right. rewrite list_lookup_insert_eq by exact Hlt.
        assert (c = (start, end_)) by congruence. subst c.
        unfold getChunk. simpl. rewrite Hg. reflexivity.
      * rewrite list_lookup_insert_ne by exact Hne. apply Hall, Hj.
    + intros j v Hj. destruct (decide (i = j)) as [<-|Hne];
        [congruence|]. rewrite list_lookup_insert_ne by exact Hne. exact Hj.
    + intros c Hj. assert (c = (start, end_)) by congruence. subst c.
      rewrite list_lookup_insert_eq by exact Hlt.
      unfold getChunk. simpl. rewrite Hg. reflexivity.
    + intros ->. reflexivity.
  - repeat split; auto.
    + intros c Hj. assert (c = (start, end_)) by congruence. subst c.
      exact Hi.
Qed.

Lemma settleAll_spec chunks wp order st :
  wellLoaded chunks st ->
  let st' := fold_left (fun st i => settleChunk total getterFn chunks wp i st)
               order st in
  wellLoaded chunks st'
  /\ (forall j v, resolved st !! j = Some (Some v) ->
                  resolved st' !! j = Some (Some v))
  /\ (forall i c, In i order -> chunks !! i = Some c ->
                  resolved st' !! i = Some (Some (getChunk c)))
  /\ (wp = false -> progress st' = progress st).
Proof.
  revert st. induction order as [|i order IH]; intros st Hw; simpl.
  - repeat split; try apply Hw; auto. intros i c [].
  - destruct (settleChunk_spec chunks wp i st Hw) as (Hw1 & Hk1 & Hi1 & Hp1).
    destruct (IH _ Hw1) as (Hw2 & Hk2 & Hi2 & Hp2).
    repeat split; try apply Hw2.
    + intros j v Hj. apply Hk2, Hk1, Hj.
    + intros j c [<-|Hin] Hc; [apply Hk2, Hi1, Hc | apply Hi2; assumption].
    + intros Hf. rewrite Hp2, Hp1; auto.
Qed.

Lemma lookup_List_map {A B : Type} (f : A -> B) (l : list A) i :
  List.map f l !! i = f <$> (l !! i).
Proof.
  revert i. induction l as [|a l IH]; intros [|i]; simpl; auto.
Qed.

Lemma allResolved_map (chunks : list (nat * nat)) :
  allResolved (List.map (fun c => Some (getChunk c)) chunks)
  = Some (List.map getChunk chunks).
Proof.
  induction chunks as [|c chunks IH]; simpl; [reflexivity|].
  rewrite IH. reflexivity.
Qed.

(** C9. With a positive [querySize], a getter that never returns an
    empty batch and every chunk's promise settling at some point of
    [order], [aggregateBulkGetter] returns (for every bound on the loop
    that is large enough) the concatenation, in chunk order, of the
    batches of the partition of [[0, total)]; and if [onProgress] is
    given, its last call passes exactly 1. *)
Theorem aggregateBulkGetter_concat (withProgress : bool) (order : list nat) :
  (forall i, (i < ceilDiv total querySize)%nat -> In i order) ->
  exists fuel0, forall fuel, (fuel0 <= fuel)%nat ->
    exists calls,
      aggregateBulkGetter total querySize getterFn withProgress fuel order
      = Some (concat (List.map getChunk partition), calls)
      /\ (withProgress = true -> exists earlier, calls = earlier ++ [1%Q])
      /\ (withProgress = false -> calls = []).
Proof.
  intros Hfair. exists (ceilDiv total querySize). intros fuel Hfuel.
  unfold aggregateBulkGetter.
  rewrite chunksFrom_partition by lia.
  rewrite Nat.sub_0_r. fold (Network.partition total querySize).
  set (st0 := mkLoading (List.map (fun _ => None) partition) 0 []).
  assert (Hw0 : wellLoaded partition st0).
  { split; simpl; [apply length_map|].
    intros i c Hc. left. rewrite lookup_List_map, Hc. reflexivity. }
  destruct (settleAll_spec partition withProgress order st0 Hw0)
    as ([Hlen Hall] & _ & Hdone & Hquiet).
  set (st := fold_left _ order st0) in *.
  assert (Hres : resolved st = List.map (fun c => Some (getChunk c)) partition).
  { apply list_eq. intros i. rewrite lookup_List_map.
    destruct (partition !! i) as [c|] eqn:Hc; simpl.
    - apply Hdone; [|exact Hc]. apply Hfair.
      apply lookup_lt_Some in Hc. unfold partition in Hc.
      rewrite length_map, length_seq in Hc. exact Hc.
    - apply lookup_ge_None. apply lookup_ge_None in Hc. lia. }
  rewrite Hres, allResolved_map.
  eexists. split; [reflexivity|]. split.
  - intros ->. eexists. reflexivity.
  - intros ->. rewrite Hquiet by reflexivity. reflexivity.
Qed.
End BulkGetter.

Lemma aggregateBulkGetter_concat_witness :
  let getterFn := fun s e : nat => s :: seq (S s) (e - s - 1) in
  (0 < 4)%nat
  /\ (forall s e, getterFn s e <> [])
  /\ (forall i, (i < Network.ceilDiv 10 4)%nat -> In i [2; 0; 1]%nat)
  /\ exists fuel0, forall fuel, (fuel0 <= fuel)%nat ->
      exists calls,
        Network.aggregateBulkGetter 10 4 getterFn true fuel [2; 0; 1]%nat
        = Some (concat (List.map (Network.getChunk getterFn) (Network.partition 10 4)),
                calls)
        /\ (true = true -> exists earlier, calls = earlier ++ [1%Q])
        /\ (true = false -> calls = []).
Proof.
  intros getterFn.
  assert (H1 : (0 < 4)%nat) by lia.
  assert (H2 : forall s e, getterFn s e <> []) by (intros s e; discriminate).
  assert (H3 : forall i, (i < Network.ceilDiv 10 4)%nat -> In i [2; 0; 1]%nat).
  { intros i Hi. change (Network.ceilDiv 10 4) with 3%nat in Hi. simpl. lia. }
  split; [exact H1|]. split; [exact H2|]. split; [exact H3|].
  exact (aggregateBulkGetter_concat 10 4 getterFn H1 H2 true [2; 0; 1]%nat H3).
Defined.

(** Ten items in chunks of four, the chunks settling out of order: the
    items come back in order and the progress calls end with 1. *)
Example aggregateBulkGetter_scenario :
  Network.aggregateBulkGetter 10 4 (fun s e : nat => s :: seq (S s) (e - s - 1))
    true 3 [2; 0; 1]%nat
  = Some ([0; 1; 2; 3; 4; 5; 6; 7; 8; 9]%nat,
          [Qmake 2 10; Qmake 6 10; Qmake 10 10; 1%Q]).
Proof. reflexivity. Qed.

(** * Further properties *)

(** ** The throttled queue: concurrency, order, progress, wake-ups *)
Section QueueMore.
Import ThrottledConcurrentQueue.

Lemma pop_last {A : Type} (l : list A) x rest :
  pop l = Some (x, rest) -> l = rest ++ [x].
Proof.
  revert x rest. induction l as [|a l IH]; intros x rest H; simpl in H;
    [discriminate|].
  destruct l as [|b l]; [injection H as <- <-; reflexivity|].
  destruct (pop (b :: l)) as [[y rest']|] eqn:E; [|discriminate].
  injection H as <- <-. rewrite (IH _ _ eq_refl). reflexivity.
Qed.

Lemma pop_nonempty {A : Type} (l : list A) :
  l <> [] -> exists x rest, pop l = Some (x, rest).
Proof.
  induction l as [|a l IH]; intros H; [contradiction|].
  destruct l as [|b l]; [simpl; eauto|].
  destruct IH as (x & rest & E); [discriminate|].
  exists x, (a :: rest). simpl in *. rewrite E. reflexivity.
Qed.

(** What the calls of [add] made by a [start] function change. *)
Lemma adds_frame ts w :
  let w' := fold_left (fun w' t => add t w') ts w in
  taskQueue (queue w') = rev ts ++ taskQueue (queue w)
  /\ concurrency (queue w') = concurrency (queue w)
  /\ maxConcurrency (queue w') = maxConcurrency (queue w)
  /\ executionTimeout (queue w') = executionTimeout (queue w)
  /\ timers w' = timers w
  /\ started w' = started w
  /\ clock w' = clock w.
Proof.
  revert w. induction ts as [|t ts IH]; intros w; simpl; [repeat split|].
  destruct (IH (add t w)) as (H1 & H2 & H3 & H4 & H5 & H6 & H7).
  simpl in *. rewrite H1, H2, H3, H4, H5, H6, H7, <- app_assoc.
  repeat split.
Qed.

Lemma callStart_frame w :
  (exists added, taskQueue (queue (callStart w)) = added ++ taskQueue (queue w))
  /\ concurrency (queue (callStart w)) = concurrency (queue w)
  /\ maxConcurrency (queue (callStart w)) = maxConcurrency (queue w)
  /\ executionTimeout (queue (callStart w)) = executionTimeout (queue w)
  /\ timers (callStart w) = timers w
  /\ started (callStart w) = started w
  /\ clock (callStart w) = clock w.
Proof.
  unfold callStart. destruct (spawns w) as [|added later].
  - split; [exists []; reflexivity | repeat split].
  - pose proof (adds_frame added
                  (mkWorld (queue w) (clock w) (readings w) later (timers w)
                     (nextTimer w) (started w))) as H.
    simpl in H. destruct H as (H1 & H2 & H3 & H4 & H5 & H6 & H7).
    split; [eexists; exact H1 | repeat split; assumption].
Qed.

Lemma dateNow_frame w :
  queue (snd (dateNow w)) = queue w
  /\ timers (snd (dateNow w)) = timers w
  /\ started (snd (dateNow w)) = started w
  /\ spawns (snd (dateNow w)) = spawns w
  /\ nextTimer (snd (dateNow w)) = nextTimer w
  /\ clock w <= clock (snd (dateNow w))
  /\ fst (dateNow w) = clock (snd (dateNow w)).
Proof.
  unfold dateNow. destruct (readings w); simpl; repeat split; lia.
Qed.

(** One call of [next] on a queue that is not empty: the task at the back
    of the array is started. *)
Lemma next_starts w task rest :
  pop (taskQueue (queue w)) = Some (task, rest) ->
  (exists added now,
      taskQueue (queue (next w)) = added ++ rest
      /\ started (next w) = started w ++ [(task, now)])
  /\ concurrency (queue (next w)) = concurrency (queue w) + 1
  /\ maxConcurrency (queue (next w)) = maxConcurrency (queue w)
  /\ executionTimeout (queue (next w)) = executionTimeout (queue w)
  /\ timers (next w) = timers w.
Proof.
  intros Hp. unfold next. rewrite Hp.
  pose proof (dateNow_frame (set_queue w (set_taskQueue (queue w) rest)))
    as (Hq & Ht & Hs & _).
  destruct (dateNow (set_queue w (set_taskQueue (queue w) rest))) as [now w1].
  simpl in Hq, Ht, Hs.
  match goal with |- context [callStart ?W] =>
    pose proof (callStart_frame W) as ([added Ha] & Hc & Hm & He & Hti & Hst & _)
  end.
  simpl in *. rewrite Hq in *. simpl in *.
  split.
  - exists added, now. rewrite Ha, Hst, Hs. split; reflexivity.
  - rewrite Hc, Hm, He, Hti, Ht. repeat split.
Qed.

Lemma next_idle w :
  pop (taskQueue (queue w)) = None -> next w = w.
Proof. intros Hp. unfold next. rewrite Hp. reflexivity. Qed.

(** The loop of [executeNextTasks] over [n] iterations, on a queue that
    holds at least [n] tasks: exactly [n] tasks are started. *)
Lemma iter_next_starts n w :
  (n <= length (taskQueue (queue w)))%nat ->
  let w' := Nat.iter n next w in
  length (started w') = (length (started w) + n)%nat
  /\ (length (taskQueue (queue w)) - n <= length (taskQueue (queue w')))%nat
  /\ concurrency (queue w') = concurrency (queue w) + Z.of_nat n
  /\ maxConcurrency (queue w') = maxConcurrency (queue w)
  /\ executionTimeout (queue w') = executionTimeout (queue w)
  /\ timers w' = timers w
  /\ exists more, startOrder w' = startOrder w ++ more.
Proof.
  induction n as [|n IH]; intros Hn; simpl.
  - repeat split; try lia. exists []. rewrite app_nil_r. reflexivity.
  - destruct IH as (Hs & Hq & Hc & Hm & He & Ht & more & Ho); [lia|].
    set (wn := Nat.iter n next w) in *.
    destruct (pop_nonempty (taskQueue (queue wn))) as (task & rest & Hp).
    { intros E. rewrite E in Hq. simpl in Hq. lia. }
    destruct (next_starts wn task rest Hp)
      as ((added & now & Hq' & Hs') & Hc' & Hm' & He' & Ht').
    pose proof (pop_last _ _ _ Hp) as Hl.
    repeat split.
    + rewrite Hs', length_app, Hs. simpl. lia.
    + rewrite Hq', length_app. rewrite Hl, length_app in Hq. simpl in Hq. lia.
    + rewrite Hc', Hc. lia.
    + congruence.
    + congruence.
    + congruence.
    + assert (Hon : startOrder (next wn) = startOrder wn ++ rev added).
      { unfold startOrder. rewrite Hs', Hq', Hl, map_app, !rev_app_distr.
        simpl. rewrite <- !app_assoc. reflexivity. }
      exists (more ++ rev added). rewrite Hon, Ho, <- app_assoc. reflexivity.
Qed.

Lemma delete_frame w :
  let w1 := deleteOutdatedExecutionTimestamps w in
  taskQueue (queue w1) = taskQueue (queue w)
  /\ concurrency (queue w1) = concurrency (queue w)
  /\ maxConcurrency (queue w1) = maxConcurrency (queue w)
  /\ executionTimeout (queue w1) = executionTimeout (queue w)
  /\ timers w1 = timers w
  /\ started w1 = started w.
Proof.
  unfold deleteOutdatedExecutionTimestamps.
  pose proof (dateNow_frame w) as (Hq & Ht & Hs & _).
  destruct (dateNow w) as [now w1]. simpl in *. rewrite Hq.
  repeat split; assumption.
Qed.

Lemma scheduleWake_frame w :
  taskQueue (queue (scheduleWake w)) = taskQueue (queue w)
  /\ concurrency (queue (scheduleWake w)) = concurrency (queue w)
  /\ maxConcurrency (queue (scheduleWake w)) = maxConcurrency (queue w)
  /\ started (scheduleWake w) = started w.
Proof.
  unfold scheduleWake, nextPossibleExecution.
  destruct (CircularBuffer.peekFirst (executionTimestamps (queue w)));
    [|repeat split].
  destruct (negb (truthy z) || limit_is0 (concurrencyQuotaRemaining (queue w)));
    [repeat split|].
  pose proof (dateNow_frame w) as (Hq & _ & Hs & _).
  destruct (dateNow w) as [now w1]. simpl in *.
  destruct ((0 <? size (queue w1)) && truthy (now - z + invocationIntervalMs (queue w)));
    simpl; rewrite Hq; repeat split; assumption.
Qed.

Lemma tasksToExecute_le_size q : tasksToExecute q <= size q.
Proof. unfold tasksToExecute, min3. destruct (concurrencyQuotaRemaining q); lia. Qed.

(** X1. A run of [executeNextTasks] starts exactly as many tasks as the
    minimum, taken after the outdated timestamps are dropped, of the
    throttle quota, the concurrency quota and the number of queued
    tasks. *)
Theorem tick_starts_exactly (w : World) :
  length (started (executeNextTasks w))
  = (length (started w)
     + Z.to_nat (tasksToExecute (queue (deleteOutdatedExecutionTimestamps w))))%nat.
Proof.
  unfold executeNextTasks.
  pose proof (delete_frame w) as (Hq & _ & _ & _ & _ & Hs).
  set (w1 := deleteOutdatedExecutionTimestamps w) in *.
  pose proof (tasksToExecute_le_size (queue w1)) as Hle.
  destruct (iter_next_starts (Z.to_nat (tasksToExecute (queue w1))) w1)
    as (Hn & _); [unfold size in Hle; lia|].
  destruct (scheduleWake_frame
              (Nat.iter (Z.to_nat (tasksToExecute (queue w1))) next w1))
    as (_ & _ & _ & Hst).
  rewrite Hst, Hn, Hs. reflexivity.
Qed.

Lemma executeNextTasks_order w :
  exists more, startOrder (executeNextTasks w) = startOrder w ++ more.
Proof.
  unfold executeNextTasks.
  pose proof (delete_frame w) as (Hq & _ & _ & _ & _ & Hs).
  set (w1 := deleteOutdatedExecutionTimestamps w) in *.
  pose proof (tasksToExecute_le_size (queue w1)) as Hle.
  destruct (iter_next_starts (Z.to_nat (tasksToExecute (queue w1))) w1)
    as (_ & _ & _ & _ & _ & _ & more & Ho); [unfold size in Hle; lia|].
  destruct (scheduleWake_frame
              (Nat.iter (Z.to_nat (tasksToExecute (queue w1))) next w1))
    as (Htq & _ & _ & Hst).
  exists more. unfold startOrder in *. rewrite Htq, Hst, Ho, Hq, Hs.
  reflexivity.
Qed.

Lemma step_order w e : exists more, startOrder (step w e) = startOrder w ++ more.
Proof.
  destruct e as [t | ds sp | | h ds sp]; simpl.
  - exists [t]. unfold startOrder. simpl. rewrite app_assoc. reflexivity.
  - apply (executeNextTasks_order
             (mkWorld (queue w) (clock w) ds sp (timers w) (nextTimer w) (started w))).
  - exists []. rewrite app_nil_r. unfold settle.
    destruct (0 <? concurrency (queue w)); reflexivity.
  - destruct (existsb _ _).
    + apply (executeNextTasks_order
               (mkWorld (queue w) (clock w) ds sp (clearTimeout h (timers w))
                  (nextTimer w) (started w))).
    + exists []. rewrite app_nil_r. reflexivity.
Qed.

(** X2. Tasks leave the queue in the order in which they entered it: along
    every trace the sequence "started tasks, then queued tasks from the
    back of the array" only grows at its end, so a task is started only
    after every task that was queued before it, and no task is lost or
    started twice. *)
Theorem starts_in_fifo_order (w : World) (trace : list Event) :
  exists more, startOrder (run w trace) = startOrder w ++ more.
Proof.
  revert w. unfold run. induction trace as [|e trace IH]; intros w; simpl.
  - exists []. rewrite app_nil_r. reflexivity.
  - destruct (step_order w e) as [m1 H1].
    destruct (IH (step w e)) as [m2 H2].
    exists (m1 ++ m2). rewrite H2, H1, app_assoc. reflexivity.
Qed.

Lemma executeNextTasks_inFlight c w :
  inFlightWithin c w -> inFlightWithin c (executeNextTasks w).
Proof.
  intros [Hm Hc]. unfold executeNextTasks.
  pose proof (delete_frame w) as (_ & Hc1 & Hm1 & _).
  set (w1 := deleteOutdatedExecutionTimestamps w) in *.
  pose proof (tasksToExecute_le_size (queue w1)) as Hle.
  destruct (iter_next_starts (Z.to_nat (tasksToExecute (queue w1))) w1)
    as (_ & _ & Hc2 & Hm2 & _); [unfold size in Hle; lia|].
  destruct (scheduleWake_frame
              (Nat.iter (Z.to_nat (tasksToExecute (queue w1))) next w1))
    as (_ & Hc3 & Hm3 & _).
  assert (Hq : tasksToExecute (queue w1) <= c - concurrency (queue w)).
  { unfold tasksToExecute, concurrencyQuotaRemaining, min3.
    rewrite Hm1, Hm, Hc1. simpl. lia. }
  split; [congruence|]. rewrite Hc3, Hc2, Hc1. lia.
Qed.

Lemma step_inFlight c w e : inFlightWithin c w -> inFlightWithin c (step w e).
Proof.
  intros H. destruct e as [t | ds sp | | h ds sp]; simpl.
  - exact H.
  - apply executeNextTasks_inFlight. exact H.
  - unfold settle. destruct (Z.ltb_spec 0 (concurrency (queue w))); [|exact H].
    destruct H as [Hm Hc]. split; simpl; [exact Hm | lia].
  - destruct (existsb _ _); [|exact H].
    apply executeNextTasks_inFlight. exact H.
Qed.


Lemma Inv_items_past R W w :
  Inv R W w ->
  Forall (fun t => t <= clock w)
    (CircularBuffer.items (executionTimestamps (queue w))).
Proof.
  intros [_ _ [gone [E _]] Hp _ _].
  assert (H : Forall (fun t => t <= clock w) (List.map snd (started w))).
  { rewrite Forall_map. exact Hp. }
  rewrite E in H. apply Forall_app in H. apply H.
Qed.

Lemma clearTimeout_single h h0 (d : Z) :
  clearTimeout h [(h0, d)] = [] \/ clearTimeout h [(h0, d)] = [(h0, d)].
Proof.
  unfold clearTimeout. simpl. destruct (Nat.eqb h0 h); simpl; auto.
Qed.

Lemma scheduleWake_oneWake R W w :
  Inv R W w -> oneWake W w -> oneWake W (scheduleWake w).
Proof.
  intros HI Hone. pose proof (Inv_items_past R W w HI) as Hpast.
  unfold scheduleWake, nextPossibleExecution, CircularBuffer.peekFirst.
  destruct (CircularBuffer.items (executionTimestamps (queue w)))
    as [|oldest rest] eqn:Hitems; simpl; [exact Hone|].
  destruct (negb (truthy oldest) || limit_is0 (concurrencyQuotaRemaining (queue w)));
    [exact Hone|].
  pose proof (dateNow_frame w) as (Hq & Ht & _ & _ & _ & Hle & Hnow).
  destruct (dateNow w) as [now w1]. simpl in *.
  assert (Hone1 : oneWake W w1).
  { unfold oneWake. rewrite Ht, Hq. exact Hone. }
  destruct ((0 <? size (queue w1)) && truthy (now - oldest + invocationIntervalMs (queue w)));
    [|exact Hone1].
  right. exists (nextTimer w1), (now - oldest + invocationIntervalMs (queue w)).
  simpl. rewrite (inv_int _ _ _ HI).
  assert (Hold : oldest <= clock w) by (inversion Hpast; assumption).
  split; [|split; [reflexivity | lia]].
  rewrite Ht, Hq.
  destruct Hone as [E | (h0 & d & E & Eh & _)]; rewrite E.
  - destruct (executionTimeout (queue w)); reflexivity.
  - rewrite Eh. unfold clearTimeout. simpl. rewrite Nat.eqb_refl. reflexivity.
Qed.

Lemma executeNextTasks_oneWake R W w :
  0 <= W -> Inv R W w -> oneWake W w -> oneWake W (executeNextTasks w).
Proof.
  intros HW HI Hone. unfold executeNextTasks.
  pose proof (Inv_delete R W w HI) as HI1.
  pose proof (delete_frame w) as (_ & _ & _ & He1 & Ht1 & _).
  set (w1 := deleteOutdatedExecutionTimestamps w) in *.
  pose proof (tasksToExecute_le_size (queue w1)) as Hle.
  set (n := Z.to_nat (tasksToExecute (queue w1))).
  destruct (iter_next_starts n w1)
    as (_ & _ & _ & _ & He2 & Ht2 & _); [unfold n, size in *; lia|].
  assert (HI2 : Inv R W (Nat.iter n next w1)).
  { apply Inv_iter_next; [exact HW | exact HI1 |].
    pose proof (min3_le_first (throttleQuotaRemaining (queue w1))
                  (concurrencyQuotaRemaining (queue w1)) (size (queue w1))) as Hm.
    unfold n, tasksToExecute, throttleQuotaRemaining in *.
    rewrite (inv_cap _ _ _ HI1) in *. pose proof (inv_size _ _ _ HI1). lia. }
  apply (scheduleWake_oneWake R W); [exact HI2|].
  unfold oneWake. rewrite Ht2, He2, Ht1, He1. exact Hone.
Qed.

Lemma step_oneWake R W w e :
  0 <= W -> Inv R W w -> oneWake W w -> oneWake W (step w e).
Proof.
  intros HW HI Hone. destruct e as [t | ds sp | | h ds sp]; simpl.
  - exact Hone.
  - apply (executeNextTasks_oneWake R W); [exact HW | | exact Hone].
    destruct HI as [Hc Hi Hsp Hp Hs Hr]. constructor; simpl; auto.
  - unfold settle. destruct (0 <? concurrency (queue w)); exact Hone.
  - destruct (existsb _ _); [|exact Hone].
    apply (executeNextTasks_oneWake R W); [exact HW | |].
    + destruct HI as [Hc Hi Hsp Hp Hs Hr]. constructor; simpl; auto.
    + unfold oneWake. simpl.
      destruct Hone as [E | (h0 & d & E & Eh & Hd)]; rewrite E.
      * left. reflexivity.
      * destruct (clearTimeout_single h h0 d) as [C|C]; rewrite C;
          [left; reflexivity | right; eauto].
Qed.

(** X4. The wake-up timers of [executeNextTasks] do not stack: along every
    trace of a constructed queue at most one of them is pending, it is the
    one [executionTimeout] names, and its delay is at least the interval
    [W]. *)
Theorem one_pending_wake (R W : Z) (C : Limit) (q : Queue) (t0 : Z)
        (trace : list Event) :
  new R W C = inr q ->
  let w := run (boot q t0) trace in
  (length (timers w) <= 1)%nat
  /\ forall h d, In (h, d) (timers w) ->
                 executionTimeout (queue w) = Some h /\ W <= d.
Proof.
  intros Hn w.
  assert (HW : 0 <= W) by (apply new_inr in Hn; lia).
  assert (H : Inv R W w /\ oneWake W w).
  { unfold w. generalize (boot q t0) (Inv_boot R W C q t0 Hn)
      (or_introl eq_refl : oneWake W (boot q t0)).
    unfold run. induction trace as [|e trace IH]; intros w0 HI Ho; simpl;
      [split; assumption|].
    apply IH; [apply Inv_step | apply (step_oneWake R W)]; assumption. }
  destruct H as [_ [E | (h0 & d0 & E & Eh & Hd)]]; rewrite E; simpl.
  - split; [lia | intros h d []].
  - split; [lia|]. intros h d [[= <- <-]|[]]. split; assumption.
Qed.

End QueueMore.


Lemma one_pending_wake_witness :
  let q := ThrottledConcurrentQueue.mkQueue [] 0 100 Infinity
             (CircularBuffer.create 1) None in
  let trace := [ThrottledConcurrentQueue.Add 1%nat;
                ThrottledConcurrentQueue.Add 2%nat;
                ThrottledConcurrentQueue.Tick [] [];
                ThrottledConcurrentQueue.Tick [50%nat] []] in
  ThrottledConcurrentQueue.new 1 100 Infinity = inr q
  /\ (let w := ThrottledConcurrentQueue.run
                 (ThrottledConcurrentQueue.boot q 1000) trace in
      (length (ThrottledConcurrentQueue.timers w) <= 1)%nat
      /\ forall h d, In (h, d) (ThrottledConcurrentQueue.timers w) ->
                     ThrottledConcurrentQueue.executionTimeout
                       (ThrottledConcurrentQueue.queue w) = Some h
                     /\ 100 <= d).
Proof.
  intros q trace.
  assert (H : ThrottledConcurrentQueue.new 1 100 Infinity = inr q) by reflexivity.
  split; [exact H|].
  exact (one_pending_wake 1 100 Infinity q 1000 trace H).
Defined.

(** ** The contract registry and the account *)
Section Registry.
Import EthConnection.

Lemma mapSet_keys {V : Type} (k : string) (v : V) (m : list (string * V)) :
  List.map fst (mapSet k v m)
  = if existsb (String.eqb k) (List.map fst m)
    then List.map fst m else List.map fst m ++ [k].
Proof.
  induction m as [|[k' v'] m IH]; simpl; [reflexivity|].
  destruct (String.eqb_spec k k') as [->|Hne]; simpl; [reflexivity|].
  rewrite IH. destruct (existsb (String.eqb k) (List.map fst m)); reflexivity.
Qed.

Lemma mapSet_In {V : Type} (k : string) (v : V) (m : list (string * V)) :
  In (k, v) (mapSet k v m).
Proof.
  induction m as [|[k' v'] m IH]; simpl; [auto|].
  destruct (String.eqb k k'); simpl; auto.
Qed.

Lemma existsb_eqb_In (k : string) (l : list string) :
  existsb (String.eqb k) l = true <-> In k l.
Proof.
  rewrite existsb_exists. split.
  - intros (x & Hin & E). apply String.eqb_eq in E. subst. exact Hin.
  - intros H. exists k. split; [exact H | apply String.eqb_refl].
Qed.

(** X5. [loadContract] keeps one loader per address: the addresses of the
    loader registry stay pairwise distinct and in the order of their first
    registration, and the loader just given is the one registered. *)
Theorem loadContract_registers (addr : string) (loader : Loader) (c : t) :
  NoDup (List.map fst (loaders c)) ->
  let c' := fst (loadContract addr loader c) in
  NoDup (List.map fst (loaders c'))
  /\ In (addr, loader) (loaders c')
  /\ (In addr (List.map fst (loaders c)) ->
      List.map fst (loaders c') = List.map fst (loaders c))
  /\ (~ In addr (List.map fst (loaders c)) ->
      List.map fst (loaders c') = List.map fst (loaders c) ++ [addr]).
Proof.
  intros Hnd c'.
  assert (Hl : loaders c' = mapSet addr loader (loaders c)).
  { unfold c', loadContract.
    destruct (loader addr _ _); reflexivity. }
  rewrite Hl, mapSet_keys.
  destruct (existsb (String.eqb addr) (List.map fst (loaders c))) eqn:E.
  - apply existsb_eqb_In in E.
    split; [exact Hnd|]. split; [apply mapSet_In|]. split; tauto.
  - assert (Hn : ~ In addr (List.map fst (loaders c))).
    { intros H. apply existsb_eqb_In in H. congruence. }
    split; [|split; [apply mapSet_In | split; tauto]].
    apply NoDup_app; [exact Hnd | constructor; [intros [] | constructor] |].
    intros x Hx [<-|[]]. exact (Hn Hx).
Qed.

(** X6. A [loadContract] whose loader resolved with [h] makes
    [getContract] return [h] for that address and leaves its result for
    every other address as it was.  A [loadContract] whose loader rejects
    leaves every handle as it was, but the loader stays registered: the
    next [reloadContracts] calls it again.  An address without a handle
    makes [getContract] throw. *)
Theorem loadContract_outcomes (addr : string) (loader : Loader) (c : t) :
  let r := loadContract addr loader c in
  (forall h, loader addr (provider c) (signer c) = inr h ->
     snd r = inr h
     /\ getContract addr (fst r) = inr h
     /\ forall other, other <> addr ->
                      getContract other (fst r) = getContract other c)
  /\ (forall e, loader addr (provider c) (signer c) = inl e ->
        snd r = inl e
        /\ contracts (fst r) = contracts c
        /\ In (addr, loader) (loaders (fst r)))
  /\ (forall other, contracts (fst r) !! other = None ->
        getContract other (fst r)
        = inl ("Contract never loaded. Address: " ++ other)%string).
Proof.
  cbv zeta. unfold loadContract, getContract. simpl.
  destruct (loader addr (provider c) (signer c)) as [e|h]; simpl.
  - split; [intros h; discriminate|]. split.
    + intros e' [= <-]. split; [reflexivity|]. split; [reflexivity|].
      apply mapSet_In.
    + intros other Hnone. rewrite Hnone. reflexivity.
  - split.
    + intros h' [= <-]. split; [reflexivity|].
      rewrite lookup_insert_eq. split; [reflexivity|].
      intros other Hne. rewrite lookup_insert_ne by congruence. reflexivity.
    + split; [intros e; discriminate|].
      intros other Hnone. rewrite Hnone. reflexivity.
Qed.

Lemma reloadLoop_frame ls c :
  provider (fst (reloadLoop ls c)) = provider c
  /\ signer (fst (reloadLoop ls c)) = signer c
  /\ loaders (fst (reloadLoop ls c)) = loaders c
  /\ rpcChanged (fst (reloadLoop ls c)) = rpcChanged c
  /\ gasPrices (fst (reloadLoop ls c)) = gasPrices c
  /\ (forall a, ~ In a (List.map fst ls) ->
                contracts (fst (reloadLoop ls c)) !! a = contracts c !! a).
Proof.
  revert c. induction ls as [|[addr loader] ls IH]; intros c; simpl;
    [repeat split|].
  destruct (loader addr (provider c) (signer c)) as [e|h]; simpl;
    [repeat split|].
  destruct (IH (set_contracts c (<[addr := h]> (contracts c))))
    as (H1 & H2 & H3 & H4 & H5 & H6).
  simpl in *. repeat split; try assumption.
  intros a Ha. rewrite H6 by tauto.
  apply lookup_insert_ne. intros ->. tauto.
Qed.

Lemma reloadLoop_ok ls c :
  NoDup (List.map fst ls) ->
  snd (reloadLoop ls c) = None ->
  forall addr loader, In (addr, loader) ls ->
    exists h, loader addr (provider c) (signer c) = inr h
              /\ contracts (fst (reloadLoop ls c)) !! addr = Some h.
Proof.
  revert c. induction ls as [|[a l] ls IH]; intros c Hnd Hok addr loader Hin;
    simpl in *; [contradiction|].
  inversion Hnd as [|? ? Hna Hnd']; subst.
  destruct (l a (provider c) (signer c)) as [e|h] eqn:Hl; simpl in *;
    [discriminate|].
  set (c1 := set_contracts c (<[a := h]> (contracts c))) in *.
  destruct Hin as [[= <- <-]|Hin].
  - exists h. split; [exact Hl|].
    destruct (reloadLoop_frame ls c1) as (_ & _ & _ & _ & _ & Hf).
    rewrite Hf by exact Hna. apply lookup_insert_eq.
  - destruct (IH c1 Hnd' Hok addr loader Hin) as (h' & Hl' & Hc').
    exists h'. split; assumption.
Qed.

Lemma reloadLoop_error ls c e :
  snd (reloadLoop ls c) = Some e ->
  exists addr loader,
    In (addr, loader) ls /\ loader addr (provider c) (signer c) = inl e.
Proof.
  revert c. induction ls as [|[a l] ls IH]; intros c H; simpl in *;
    [discriminate|].
  destruct (l a (provider c) (signer c)) as [e'|h] eqn:Hl; simpl in *.
  - injection H as <-. exists a, l. auto.
  - destruct (IH _ H) as (addr & loader & Hin & Hr).
    exists addr, loader. simpl in Hr. auto.
Qed.

Lemma reloadContracts_handles (c : t) :
  NoDup (List.map fst (loaders c)) ->
  snd (reloadContracts c) = None ->
  forall addr loader, In (addr, loader) (loaders c) ->
    exists h, loader addr (provider c) (signer c) = inr h
              /\ contracts (fst (reloadContracts c)) !! addr = Some h.
Proof.
  intros Hnd Hok. unfold reloadContracts in *.
  apply reloadLoop_ok; assumption.
Qed.

(** X7. When [reloadContracts] succeeds, every registered address holds
    the handle its loader gives against the provider and signer the
    connection has at that moment; the handles of other addresses, the
    provider, the signer and the loaders are unchanged. *)
Theorem reloadContracts_reloads (c : t) :
  NoDup (List.map fst (loaders c)) ->
  snd (reloadContracts c) = None ->
  let c' := fst (reloadContracts c) in
  provider c' = provider c /\ signer c' = signer c /\ loaders c' = loaders c
  /\ (forall addr loader, In (addr, loader) (loaders c) ->
        exists h, loader addr (provider c) (signer c) = inr h
                  /\ contracts c' !! addr = Some h)
  /\ (forall addr, ~ In addr (List.map fst (loaders c)) ->
                   contracts c' !! addr = contracts c !! addr).
Proof.
  intros Hnd Hok c'. unfold c', reloadContracts in *.
  destruct (reloadLoop_frame (loaders c) c) as (H1 & H2 & H3 & _ & _ & H6).
  repeat split; try assumption.
  apply reloadLoop_ok; assumption.
Qed.

(** When [reloadContracts] rejects, it is with the error of a registered
    loader that rejected against the current provider and signer;
    provider, signer and loaders are unchanged. *)
Lemma reloadContracts_rejects (c : t) e :
  snd (reloadContracts c) = Some e ->
  (exists addr loader,
      In (addr, loader) (loaders c)
      /\ loader addr (provider c) (signer c) = inl e)
  /\ provider (fst (reloadContracts c)) = provider c
  /\ signer (fst (reloadContracts c)) = signer c
  /\ loaders (fst (reloadContracts c)) = loaders c.
Proof.
  intros H. unfold reloadContracts in *.
  destruct (reloadLoop_frame (loaders c) c) as (H1 & H2 & H3 & _).
  split; [apply reloadLoop_error; exact H | auto].
Qed.


End Registry.

Section AccountFacts.
Import EthConnection.

(** X9. [setAccount] builds the wallet first: when the constructor throws
    on the key, [setAccount] rejects with that error and the connection,
    its signer included, and the balance are as before.  Otherwise the
    signer is assigned before the balance is loaded.  When the balance is
    loaded and every loader resolves, every registered address holds the
    handle its loader gives with the new signer. When the balance cannot be
    loaded, the connection already has the new signer while its handles
    and its balance are the old ones. *)
Theorem setAccount_outcomes (Wallet : string -> Err + Signer) (skey : string)
        (loadBalance : Err + Z) (a : Account.t) :
  NoDup (List.map fst (loaders (Account.connection a))) ->
  let r := Account.setAccount Wallet skey loadBalance a in
  let c := Account.connection a in
  let c' := Account.connection (fst r) in
  (forall e, Wallet skey = inl e -> r = (a, Some e))
  /\ (forall wallet, Wallet skey = inr wallet ->
        signer c' = Some wallet /\ provider c' = provider c
        /\ (forall b, loadBalance = inr b -> snd r = None ->
              Account.balance (fst r) = b
              /\ forall addr loader, In (addr, loader) (loaders c) ->
                   exists h, loader addr (provider c) (Some wallet) = inr h
                             /\ contracts c' !! addr = Some h)
        /\ (forall e, loadBalance = inl e ->
              snd r = Some e /\ contracts c' = contracts c
              /\ Account.balance (fst r) = Account.balance a)).
Proof.
  intros Hnd. cbv zeta. unfold Account.setAccount.
  destruct (Wallet skey) as [e0|w].
  { split; [intros e [= <-]; reflexivity | intros wallet; discriminate]. }
  split; [intros e; discriminate|]. intros wallet [= <-].
  set (c := Account.connection a) in *.
  set (c1 := mk (provider c) (Some w) (gasPrices c) (contracts c)
               (loaders c) (rpcChanged c)).
  destruct loadBalance as [e|b]; simpl.
  - split; [reflexivity|]. split; [reflexivity|].
    split; [intros b; discriminate|].
    intros e' [= <-]. auto.
  - pose proof (reloadContracts_handles c1 Hnd) as Hok.
    unfold reloadContracts in *.
    destruct (reloadLoop_frame (loaders c1) c1) as (H1 & H2 & _).
    destruct (reloadLoop (loaders c1) c1) as [c2 res]; simpl in *.
    split; [exact H2|]. split; [exact H1|].
    split; [|intros e; discriminate].
    intros b' [= <-] Hres. split; [reflexivity|].
    intros addr loader Hin.
    exact (Hok Hres addr loader Hin).
Qed.

End AccountFacts.

Lemma loadContract_registers_witness :
  NoDup (List.map fst (EthConnection.loaders exampleConnection))
  /\ (let c' := fst (EthConnection.loadContract "0xB"
                       EthConnection.createContract exampleConnection) in
      NoDup (List.map fst (EthConnection.loaders c'))
      /\ In ("0xB"%string, EthConnection.createContract) (EthConnection.loaders c')
      /\ (In "0xB"%string (List.map fst (EthConnection.loaders exampleConnection)) ->
          List.map fst (EthConnection.loaders c')
          = List.map fst (EthConnection.loaders exampleConnection))
      /\ (~ In "0xB"%string (List.map fst (EthConnection.loaders exampleConnection)) ->
          List.map fst (EthConnection.loaders c')
          = List.map fst (EthConnection.loaders exampleConnection) ++ ["0xB"%string])).
Proof.
  assert (H : NoDup (List.map fst (EthConnection.loaders exampleConnection))).
  { simpl. constructor; [intros [] | constructor]. }
  split; [exact H|].
  exact (loadContract_registers "0xB" EthConnection.createContract
           exampleConnection H).
Defined.

Lemma reloadContracts_reloads_witness :
  NoDup (List.map fst (EthConnection.loaders exampleConnection))
  /\ snd (EthConnection.reloadContracts exampleConnection) = None
  /\ (let c := exampleConnection in
      let c' := fst (EthConnection.reloadContracts c) in
      EthConnection.provider c' = EthConnection.provider c
      /\ EthConnection.signer c' = EthConnection.signer c
      /\ EthConnection.loaders c' = EthConnection.loaders c
      /\ (forall addr loader, In (addr, loader) (EthConnection.loaders c) ->
            exists h, loader addr (EthConnection.provider c) (EthConnection.signer c)
                      = inr h
                      /\ EthConnection.contracts c' !! addr = Some h)
      /\ (forall addr, ~ In addr (List.map fst (EthConnection.loaders c)) ->
                       EthConnection.contracts c' !! addr
                       = EthConnection.contracts c !! addr)).
Proof.
  assert (H : NoDup (List.map fst (EthConnection.loaders exampleConnection))).
  { simpl. constructor; [intros [] | constructor]. }
  assert (H' : snd (EthConnection.reloadContracts exampleConnection) = None)
    by reflexivity.
  split; [exact H|]. split; [exact H'|].
  exact (reloadContracts_reloads exampleConnection H H').
Defined.

Lemma setAccount_outcomes_witness :
  let a := Account.mk exampleConnection 0 in
  let loadBalance : Err + Z := inr 5 in
  NoDup (List.map fst (EthConnection.loaders (Account.connection a)))
  /\ (let r := Account.setAccount exampleWallet exampleKey loadBalance a in
      let c := Account.connection a in
      let c' := Account.connection (fst r) in
      (forall e, exampleWallet exampleKey = inl e -> r = (a, Some e))
      /\ (forall wallet, exampleWallet exampleKey = inr wallet ->
            EthConnection.signer c' = Some wallet
            /\ EthConnection.provider c' = EthConnection.provider c
            /\ (forall b, loadBalance = inr b -> snd r = None ->
                  Account.balance (fst r) = b
                  /\ forall addr loader,
                       In (addr, loader) (EthConnection.loaders c) ->
                       exists h, loader addr (EthConnection.provider c)
                                   (Some wallet) = inr h
                                 /\ EthConnection.contracts c' !! addr = Some h)
            /\ (forall e, loadBalance = inl e ->
                  snd r = Some e
                  /\ EthConnection.contracts c' = EthConnection.contracts c
                  /\ Account.balance (fst r) = Account.balance a))).
Proof.
  intros a loadBalance.
  assert (H : NoDup (List.map fst (EthConnection.loaders (Account.connection a)))).
  { simpl. constructor; [intros [] | constructor]. }
  split; [exact H|].
  exact (setAccount_outcomes exampleWallet exampleKey loadBalance a H).
Defined.


(** ** The block watcher *)
Section Blocks.
Import BlockWatcher.

Lemma map_seq_from {A : Type} (g : nat -> A) m k :
  List.map g (seq k m) = List.map (fun i => g (k + i)%nat) (seq 0 m).
Proof.
  revert k. induction m as [|m IH]; intros k; simpl; [reflexivity|].
  rewrite Nat.add_0_r. f_equal.
  rewrite IH, <- seq_shift, map_map.
  apply map_ext. intros i. f_equal. lia.
Qed.

Lemma zrange_app a n m :
  zrange a n ++ zrange (a + Z.of_nat n) m = zrange a (n + m).
Proof.
  unfold zrange. rewrite seq_app, map_app. f_equal. simpl.
  rewrite (map_seq_from (fun i => a + Z.of_nat i) m n).
  apply map_ext. intros i. lia.
Qed.

Lemma last_cons_default {A : Type} (b d : A) bs :
  last (b :: bs) d = last bs b.
Proof.
  revert b d. induction bs as [|x bs IH]; intros b d; [reflexivity|].
  change (last (b :: x :: bs) d) with (last (x :: bs) d).
  rewrite (IH x d), (IH x b). reflexivity.
Qed.

Lemma increasing_last b bs : increasing b bs -> b <= last bs b.
Proof.
  revert b. induction bs as [|x bs IH]; intros b Hinc; [simpl; lia|].
  destruct Hinc as [Hx Hr]. rewrite last_cons_default.
  specialize (IH x Hr). lia.
Qed.

Lemma onNewBlock_all_frame bs s :
  requested (fold_left onNewBlock bs s)
  = requested s ++ requested (fold_left onNewBlock bs (mk (blockNumber s) [] []))
  /\ published (fold_left onNewBlock bs s) = published s ++ bs
  /\ blockNumber (fold_left onNewBlock bs s) = last bs (blockNumber s).
Proof.
  revert s. induction bs as [|b bs IH]; intros s; cbn [fold_left].
  - simpl. rewrite !app_nil_r. repeat split.
  - destruct (IH (onNewBlock s b)) as (H1 & H2 & H3).
    destruct (IH (onNewBlock (mk (blockNumber s) [] []) b)) as (H1' & _ & _).
    rewrite H1, H2, H3, H1', last_cons_default. simpl.
    rewrite <- !app_assoc. simpl. repeat split.
Qed.

(** X10. With one subscription, when every notification is for a later
    block than the one before (and than the block number the connection
    starts with), the ranges
    handed to [processEvents] cover every block after the starting one up to
    the latest exactly once and in order, the block number ends at the
    latest block and every notified block is published. *)
Theorem onNewBlock_covers (b0 : Z) (notifications : list Z) :
  increasing b0 notifications ->
  let s := fold_left onNewBlock notifications (mk b0 [] []) in
  flat_map blocksIn (requested s)
  = zrange (b0 + 1) (Z.to_nat (last notifications b0 - b0))
  /\ blockNumber s = last notifications b0
  /\ published s = notifications.
Proof.
  intros Hinc. cbv zeta.
  destruct (onNewBlock_all_frame notifications (mk b0 [] [])) as (_ & Hp & Hb).
  split; [|split; [exact Hb | exact Hp]].
  clear Hp Hb. revert b0 Hinc.
  induction notifications as [|b bs IH]; intros b0 Hinc; cbn [fold_left].
  - simpl. rewrite Z.sub_diag. reflexivity.
  - destruct Hinc as [Hlt Hinc].
    destruct (onNewBlock_all_frame bs (onNewBlock (mk b0 [] []) b)) as (H1 & _).
    rewrite H1, flat_map_app.
    change (blockNumber (onNewBlock (mk b0 [] []) b)) with b.
    change (requested (onNewBlock (mk b0 [] []) b))
      with [(Z.min (b0 + 1) b, b)].
    rewrite (IH b Hinc). cbn [flat_map]. rewrite app_nil_r.
    pose proof (increasing_last b bs Hinc) as Hlast.
    rewrite last_cons_default.
    unfold blocksIn. simpl. rewrite Z.min_l by lia.
    replace (b + 1) with (b0 + 1 + Z.of_nat (Z.to_nat (b - (b0 + 1) + 1))) by lia.
    rewrite zrange_app. f_equal. lia.
Qed.

End Blocks.

Lemma onNewBlock_covers_witness :
  BlockWatcher.increasing 10 [11; 14; 15]
  /\ (let s := fold_left BlockWatcher.onNewBlock [11; 14; 15]
                 (BlockWatcher.mk 10 [] []) in
      flat_map BlockWatcher.blocksIn (BlockWatcher.requested s)
      = BlockWatcher.zrange (10 + 1) (Z.to_nat (last [11; 14; 15] 10 - 10))
      /\ BlockWatcher.blockNumber s = last [11; 14; 15] 10
      /\ BlockWatcher.published s = [11; 14; 15]).
Proof.
  assert (H : BlockWatcher.increasing 10 [11; 14; 15]) by (simpl; lia).
  split; [exact H|].
  exact (onNewBlock_covers 10 [11; 14; 15] H).
Defined.

(** ** The bulk getter: coverage and the calls that never return *)
Section BulkMore.
Import Network.
Context {T : Type}.
Variable total querySize : nat.
Variable getterFn : nat -> nat -> list T.

Lemma chunks_prefix_cover j :
  (0 < querySize)%nat ->
  (j <= ceilDiv total querySize)%nat ->
  flat_map (fun c => seq (fst c) (snd c - fst c))
    (List.map (chunkOf total querySize) (seq 0 j))
  = seq 0 (Nat.min (j * querySize) total).
Proof.
  intros Hq. induction j as [|j IH]; intros Hj; [reflexivity|].
  rewrite seq_S, map_app, flat_map_app, IH by lia. simpl.
  rewrite app_nil_r.
  assert (Hlt : (j * querySize < total)%nat).
  { apply Nat.ltb_lt. rewrite (more_chunks total querySize Hq).
    apply Nat.ltb_lt. lia. }
  rewrite (Nat.min_l (j * querySize)) by lia.
  replace (Nat.min (querySize + j * querySize) total)
    with (j * querySize + (Nat.min ((j + 1) * querySize) total - j * querySize))%nat
    by lia.
  rewrite seq_app. reflexivity.
Qed.

Lemma partition_flat :
  (0 < querySize)%nat ->
  flat_map (fun c => seq (fst c) (snd c - fst c)) (partition total querySize)
  = seq 0 total.
Proof.
  intros Hq.
  unfold partition. rewrite chunks_prefix_cover by (exact Hq || lia).
  f_equal. apply Nat.min_r.
  pose proof (more_chunks total querySize Hq (ceilDiv total querySize)) as H.
  rewrite Nat.ltb_irrefl in H. apply Nat.ltb_ge in H. exact H.
Qed.

Lemma partition_chunk_width :
  (0 < querySize)%nat ->
  Forall (fun c => (fst c < snd c)%nat /\ (snd c - fst c <= querySize)%nat)
    (partition total querySize).
Proof.
  intros Hq.
  unfold partition. apply Forall_forall. intros c Hin.
  apply in_map_iff in Hin. destruct Hin as (i & <- & Hi).
  apply in_seq in Hi.
  assert (Hlt : (i * querySize < total)%nat).
  { apply Nat.ltb_lt. rewrite (more_chunks total querySize Hq).
    apply Nat.ltb_lt. lia. }
  unfold chunkOf. simpl. lia.
Qed.

Lemma chunksFrom_Some fuel i chunks :
  (0 < querySize)%nat ->
  chunksFrom total querySize fuel i = Some chunks ->
  chunks = List.map (chunkOf total querySize)
             (seq i (ceilDiv total querySize - i)).
Proof.
  intros Hq. revert i chunks. induction fuel as [|fuel IH]; intros i chunks;
    simpl; rewrite (more_chunks total querySize Hq);
    destruct (Nat.ltb_spec i (ceilDiv total querySize)) as [Hi|Hi];
    try discriminate.
  - intros [= <-].
    replace (ceilDiv total querySize - i)%nat with 0%nat by lia. reflexivity.
  - destruct (chunksFrom total querySize fuel (i + 1)) as [rest|] eqn:E;
      [|discriminate].
    intros [= <-]. rewrite (IH _ _ E).
    replace (ceilDiv total querySize - i)%nat
      with (S (ceilDiv total querySize - (i + 1)))%nat by lia.
    simpl. replace (S i) with (i + 1)%nat by lia. reflexivity.
  - intros [= <-].
    replace (ceilDiv total querySize - i)%nat with 0%nat by lia. reflexivity.
Qed.

(** X11. For a positive [querySize] the [for] loop ends, after at most
    [total] rounds, and the chunks it makes cover [[0, total)] exactly once
    and in order; every chunk is non-empty and at most [querySize] wide. *)
Theorem loop_chunks_cover :
  (0 < querySize)%nat ->
  exists chunks,
    (forall fuel, (total <= fuel)%nat ->
                  chunksFrom total querySize fuel 0 = Some chunks)
    /\ (forall fuel chunks',
          chunksFrom total querySize fuel 0 = Some chunks' -> chunks' = chunks)
    /\ flat_map (fun c => seq (fst c) (snd c - fst c)) chunks = seq 0 total
    /\ Forall (fun c => (fst c < snd c)%nat /\ (snd c - fst c <= querySize)%nat)
         chunks.
Proof.
  intros Hq. exists (partition total querySize).
  assert (Hle : (ceilDiv total querySize <= total)%nat).
  { unfold ceilDiv. apply Nat.lt_succ_r.
    apply Nat.Div0.div_lt_upper_bound. nia. }
  split.
  { intros fuel Hf.
    rewrite (chunksFrom_partition total querySize Hq) by lia.
    rewrite Nat.sub_0_r. reflexivity. }
  split.
  { intros fuel chunks' H. apply (chunksFrom_Some _ _ _ Hq) in H.
    rewrite Nat.sub_0_r in H. exact H. }
  split; [exact (partition_flat Hq) | exact (partition_chunk_width Hq)].
Qed.

Lemma allResolved_pending (rs : list (option (list T))) i :
  rs !! i = Some None -> allResolved rs = None.
Proof.
  revert i. induction rs as [|r rs IH]; intros [|i] H; simpl in *;
    try discriminate.
  - injection H as ->. reflexivity.
  - destruct r; [|reflexivity]. rewrite (IH i H). reflexivity.
Qed.

Lemma settleChunk_stuck chunks wp i j st s e :
  chunks !! i = Some (s, e) -> getterFn s e = [] ->
  resolved st !! i = Some None ->
  resolved (settleChunk total getterFn chunks wp j st) !! i = Some None.
Proof.
  intros Hc Hg Hi. unfold settleChunk.
  destruct (chunks !! j) as [[s' e']|] eqn:Hj; [|exact Hi].
  destruct (resolved st !! j) as [[r|]|] eqn:Hr; try exact Hi.
  simpl. destruct (getterFn s' e') as [|t ts] eqn:Hg'; [exact Hi|].
  destruct (decide (j = i)) as [->|Hne].
  - rewrite Hc in Hj. injection Hj as <- <-. congruence.
  - rewrite list_lookup_insert_ne by exact Hne. exact Hi.
Qed.

(** X12. If the getter returns an empty batch for one chunk of the
    partition, [aggregateBulkGetter] never returns, whatever the order in
    which the promises settle and however long one waits: the chunk is
    retried for ever. *)
Theorem aggregateBulkGetter_empty_batch (c : nat * nat) :
  (0 < querySize)%nat ->
  In c (partition total querySize) ->
  getterFn (fst c) (snd c) = [] ->
  forall withProgress fuel order,
    aggregateBulkGetter total querySize getterFn withProgress fuel order = None.
Proof.
  intros Hq Hin Hg wp fuel order. unfold aggregateBulkGetter.
  destruct (chunksFrom total querySize fuel 0) as [chunks|] eqn:E; [|reflexivity].
  apply (chunksFrom_Some _ _ _ Hq) in E. rewrite Nat.sub_0_r in E.
  fold (partition total querySize) in E. subst chunks.
  apply In_nth_error in Hin. destruct Hin as [i Hi].
  assert (Hc : partition total querySize !! i = Some c).
  { clear -Hi. revert i Hi.
    induction (partition total querySize) as [|x l IH]; intros [|i] H;
      simpl in *; try discriminate; auto. }
  destruct c as [s e]. simpl in Hg.
  set (st0 := mkLoading (List.map (fun _ => None) (partition total querySize)) 0 []).
  assert (H0 : resolved st0 !! i = Some None).
  { simpl. rewrite lookup_List_map, Hc. reflexivity. }
  assert (H : resolved
                (fold_left (fun st j => settleChunk total getterFn
                                          (partition total querySize) wp j st)
                   order st0) !! i = Some None).
  { generalize st0 H0. induction order as [|j order IH]; intros st Hst; simpl;
      [exact Hst|].
    apply IH. eapply settleChunk_stuck; eauto. }
  rewrite (allResolved_pending _ i H). reflexivity.
Qed.

Lemma chunksFrom_zero fuel i :
  (0 < total)%nat -> chunksFrom total 0 fuel i = None.
Proof.
  intros Ht. revert i. induction fuel as [|fuel IH]; intros i; simpl;
    rewrite Nat.mul_0_r; destruct (Nat.ltb_spec 0 total); try lia;
    [reflexivity|].
  rewrite IH. reflexivity.
Qed.

(** X13. With [querySize = 0] and a positive [total] the [for] loop never
    ends: [aggregateBulkGetter] does not return, whatever the bound on the
    loop. *)
Theorem aggregateBulkGetter_zero_querySize :
  (0 < total)%nat ->
  forall withProgress fuel order,
    aggregateBulkGetter total 0 getterFn withProgress fuel order = None.
Proof.
  intros Ht wp fuel order. unfold aggregateBulkGetter.
  rewrite chunksFrom_zero by assumption. reflexivity.
Qed.

Lemma resolvedWidth_insert (chunks : list (nat * nat))
      (rs : list (option (list T))) i c v :
  chunks !! i = Some c -> rs !! i = Some None ->
  resolvedWidth chunks (<[i := Some v]> rs)
  = (resolvedWidth chunks rs + (snd c - fst c))%nat.
Proof.
  revert rs i. induction chunks as [|c0 chunks IH]; intros [|r rs] [|i] Hc Hr;
    simpl in *; try discriminate.
  - injection Hc as ->. injection Hr as ->. simpl. lia.
  - rewrite (IH rs i Hc Hr). lia.
Qed.

Lemma resolvedWidth_le (chunks : list (nat * nat)) (rs : list (option (list T))) :
  (resolvedWidth chunks rs
   <= list_sum (List.map (fun c : nat * nat => (snd c - fst c)%nat) chunks))%nat.
Proof.
  revert rs. induction chunks as [|c chunks IH]; intros [|r rs]; simpl; try lia.
  specialize (IH rs). destruct r; lia.
Qed.

Lemma partition_widths :
  (0 < querySize)%nat ->
  list_sum (List.map (fun c : nat * nat => (snd c - fst c)%nat)
       (partition total querySize))
  = total.
Proof.
  intros Hq. pose proof (partition_flat Hq) as Hc.
  apply (f_equal (@length nat)) in Hc.
  rewrite length_flat_map, length_seq in Hc. rewrite <- Hc at 2.
  f_equal. apply map_ext. intros c. rewrite length_seq. reflexivity.
Qed.

Lemma fraction_inUnit loaded :
  (0 < total)%nat -> (loaded <= total)%nat -> inUnit (fraction total loaded).
Proof.
  intros Ht Hl. unfold inUnit, fraction, Qle. simpl.
  split; [lia|].
  rewrite Z.mul_1_r, Z.mul_1_l.
  replace (Z.pos (Pos.of_nat total)) with (Z.of_nat total)
    by (destruct total; lia).
  lia.
Qed.

Hypothesis querySize_pos : (0 < querySize)%nat.
Hypothesis getter_nonempty : forall s e, getterFn s e <> [].

Local Abbreviation progressOk := (progressOk total querySize getterFn) (only parsing).

Lemma settleChunk_progressOk wp i st :
  progressOk st ->
  progressOk (settleChunk total getterFn (partition total querySize) wp i st).
Proof.
  intros (Hw & Hl & Hp).
  destruct (settleChunk_spec total getterFn getter_nonempty
              (partition total querySize) wp i st Hw) as (Hw' & _).
  split; [exact Hw'|]. clear Hw'.
  unfold settleChunk.
  destruct (partition total querySize !! i) as [[s e]|] eqn:Hc; [|split; assumption].
  destruct (resolved st !! i) as [[r|]|] eqn:Hr; try (split; assumption).
  simpl. destruct (getterFn s e) as [|t ts] eqn:Hg;
    [exfalso; exact (getter_nonempty _ _ Hg)|].
  assert (Hsum : resolvedWidth (partition total querySize)
                   (<[i := Some (t :: ts)]> (resolved st))
                 = (loadedSoFar st + (e - s))%nat).
  { rewrite (resolvedWidth_insert _ _ i (s, e)) by assumption.
    rewrite Hl. reflexivity. }
  split; [symmetry; exact Hsum|].
  destruct wp; [|exact Hp].
  apply Forall_app. split; [exact Hp|]. constructor; [|constructor].
  pose proof (resolvedWidth_le (partition total querySize)
                (<[i := Some (t :: ts)]> (resolved st))) as Hle.
  rewrite partition_widths, Hsum in Hle by exact querySize_pos.
  apply fraction_inUnit; [|exact Hle].
  pose proof (partition_chunk_width querySize_pos) as Hall.
  rewrite Forall_forall in Hall.
  assert (Hin : In (s, e) (partition total querySize)).
  { apply list_elem_of_In, list_elem_of_lookup. eauto. }
  specialize (Hall _ Hin). simpl in Hall. lia.
Qed.

(** X14. With a positive [querySize] and a getter that never returns an
    empty batch, every value passed to [onProgress] by a call that returns
    is a fraction between 0 and 1, whatever the order in which the chunks
    settle. *)
Theorem aggregateBulkGetter_progress_in_unit fuel order items calls :
  aggregateBulkGetter total querySize getterFn true fuel order
  = Some (items, calls) ->
  Forall inUnit calls.
Proof.
  unfold aggregateBulkGetter.
  destruct (chunksFrom total querySize fuel 0) as [chunks|] eqn:E; [|discriminate].
  apply (chunksFrom_Some _ _ _ querySize_pos) in E. rewrite Nat.sub_0_r in E.
  fold (partition total querySize) in E. subst chunks.
  set (st0 := mkLoading (List.map (fun _ => None) (partition total querySize)) 0 []).
  assert (H0 : progressOk st0).
  { split; [|split].
    - split; simpl; [apply length_map|].
      intros i c Hc. left. rewrite lookup_List_map, Hc. reflexivity.
    - simpl. clear. induction (partition total querySize) as [|c l IH];
        simpl; [reflexivity | exact IH].
    - constructor. }
  assert (H : progressOk
                (fold_left (fun st j => settleChunk total getterFn
                                          (partition total querySize) true j st)
                   order st0)).
  { generalize st0 H0. induction order as [|j order IH]; intros st Hst; simpl;
      [exact Hst|].
    apply IH, settleChunk_progressOk, Hst. }
  destruct (allResolved _); [|discriminate].
  intros [= _ <-]. apply Forall_app. split; [apply H|].
  constructor; [|constructor]. split; discriminate.
Qed.

End BulkMore.

Lemma loop_chunks_cover_witness :
  (0 < 4)%nat
  /\ exists chunks,
      (forall fuel, (10 <= fuel)%nat ->
                    Network.chunksFrom 10 4 fuel 0 = Some chunks)
      /\ (forall fuel chunks',
            Network.chunksFrom 10 4 fuel 0 = Some chunks' -> chunks' = chunks)
      /\ flat_map (fun c => seq (fst c) (snd c - fst c)) chunks = seq 0 10
      /\ Forall (fun c => (fst c < snd c)%nat /\ (snd c - fst c <= 4)%nat)
           chunks.
Proof.
  assert (H : (0 < 4)%nat) by lia.
  split; [exact H|].
  exact (loop_chunks_cover 10 4 H).
Defined.

Lemma aggregateBulkGetter_empty_batch_witness :
  let getterFn := fun s e : nat => if (s =? 4)%nat then [] else [s] in
  (0 < 4)%nat
  /\ In (4, 8)%nat (Network.partition 10 4)
  /\ getterFn (fst (4, 8)%nat) (snd (4, 8)%nat) = []
  /\ forall withProgress fuel order,
      Network.aggregateBulkGetter 10 4 getterFn withProgress fuel order = None.
Proof.
  intros getterFn.
  assert (H1 : (0 < 4)%nat) by lia.
  assert (H2 : In (4, 8)%nat (Network.partition 10 4))
    by (right; left; reflexivity).
  assert (H3 : getterFn (fst (4, 8)%nat) (snd (4, 8)%nat) = []) by reflexivity.
  split; [exact H1|]. split; [exact H2|]. split; [exact H3|].
  exact (aggregateBulkGetter_empty_batch 10 4 getterFn (4, 8)%nat H1 H2 H3).
Defined.

Lemma aggregateBulkGetter_zero_querySize_witness :
  (0 < 3)%nat
  /\ forall withProgress fuel order,
      Network.aggregateBulkGetter 3 0 (fun s e : nat => [s]) withProgress fuel order
      = None.
Proof.
  assert (H : (0 < 3)%nat) by lia.
  split; [exact H|].
  exact (aggregateBulkGetter_zero_querySize 3 (fun s e : nat => [s]) H).
Defined.

Lemma aggregateBulkGetter_progress_in_unit_witness :
  let getterFn := fun s e : nat => s :: seq (S s) (e - s - 1) in
  let items := [0; 1; 2; 3; 4; 5; 6; 7; 8; 9]%nat in
  let calls := [Qmake 2 10; Qmake 6 10; Qmake 10 10; 1%Q] in
  (0 < 4)%nat
  /\ (forall s e, getterFn s e <> [])
  /\ Network.aggregateBulkGetter 10 4 getterFn true 3 [2; 0; 1]%nat
     = Some (items, calls)
  /\ Forall inUnit calls.
Proof.
  intros getterFn items calls.
  assert (H1 : (0 < 4)%nat) by lia.
  assert (H2 : forall s e, getterFn s e <> []) by (intros s e; discriminate).
  assert (H3 : Network.aggregateBulkGetter 10 4 getterFn true 3 [2; 0; 1]%nat
               = Some (items, calls)) by reflexivity.
  split; [exact H1|]. split; [exact H2|]. split; [exact H3|].
  exact (aggregateBulkGetter_progress_in_unit 10 4 getterFn H1 H2 3
           [2; 0; 1]%nat items calls H3).
Defined.

(** ** The transaction executor: requests, cancellation, time, sequences *)
Section ExecutorMore.
Import TxExecutor.

(** The properties of a request built from the overrides [o]. *)
Lemma withNonce_lookup heap tx n (o : gmap string Value) :
  heap !! overrides tx = Some o ->
  let request := withNonce (requestWithDefaults heap tx) n in
  request !! "nonce"%string = Some (nonceValue n)
  /\ request !! "gasLimit"%string
     = Some (default (VInt 2000000) (o !! "gasLimit"%string))
  /\ forall k, k <> "nonce"%string -> k <> "gasLimit"%string ->
               request !! k = o !! k.
Proof.
  intros Ho. cbv zeta.
  unfold withNonce, requestWithDefaults, defaultTxOptions. rewrite Ho. simpl.
  split; [apply lookup_insert_eq|]. split.
  - rewrite lookup_insert_ne by discriminate.
    rewrite lookup_union, lookup_singleton_eq.
    destruct (o !! "gasLimit"%string); reflexivity.
  - intros k Hk1 Hk2. rewrite lookup_insert_ne by congruence.
    rewrite lookup_union, lookup_singleton_ne by congruence.
    destruct (o !! k); reflexivity.
Qed.

Local Opaque withNonce requestWithDefaults.

Ltac unfold_execute :=
  unfold execute, tryCatch, tryBlock, catchBlock, submitTransaction,
    maybeUpdateNonce, bind, get, update, fire, ret, await, pTimeout, enter;
  simpl.

Ltac split_cases env x clock :=
  destruct x as [[n0|] last hook q pend]; simpl in *;
  try destruct (NONCE_STALE_AFTER_MS <? clock - last) eqn:Hstale; simpl;
  try (destruct (getNonce env) as [dn [n1|]|dn en|] eqn:Hget; simpl);
  destruct hook; simpl;
  try (destruct (before env) as [db []|db eb|] eqn:Hbefore; simpl);
  try (destruct (submit env) as [ds r|ds es|] eqn:Hsubmit; simpl;
       try (destruct (Z.of_nat ds <? TX_SUBMIT_TIMEOUT) eqn:Hintime; simpl)).

(** X15. The request handed to the contract method is the caller's
    overrides laid over the default options, with the executor's nonce:
    [nonce] is what the chain returned when the refresh was due (unless
    that is [undefined]) and the nonce the executor held otherwise,
    whatever [nonce] the overrides have; [gasLimit] is 2000000 unless the
    overrides have the property (even with the value [undefined]); every
    other property is the one of the overrides. *)
Theorem request_composition heap tx env x clock request
        (o : gmap string Value) :
  heap !! overrides tx = Some o ->
  In request (sent (frameOf (execute heap tx env x clock))) ->
  (refreshDue x clock = false ->
   request !! "nonce"%string = Some (nonceValue (nonce x)))
  /\ (refreshDue x clock = true ->
      forall d a, getNonce env = Resolves d a ->
        request !! "nonce"%string
        = Some (match a with Some n => VInt n | None => nonceValue (nonce x) end))
  /\ request !! "gasLimit"%string
     = Some (default (VInt 2000000) (o !! "gasLimit"%string))
  /\ forall k, k <> "nonce"%string -> k <> "gasLimit"%string ->
               request !! k = o !! k.
Proof.
  intros Ho Hin.
  destruct (execute_carries heap tx env x clock request Hin)
    as (n & -> & Hkeep & Hfresh).
  destruct (withNonce_lookup heap tx n o Ho) as (H1 & H2 & H3).
  split; [intros Hdue; rewrite H1, (Hkeep Hdue); reflexivity|].
  split; [|split; [exact H2 | exact H3]].
  intros Hdue d a Hg. rewrite H1, (Hfresh Hdue d a Hg).
  destruct a; reflexivity.
Qed.

(** X16. A run is cancelled before the contract method is called when the
    nonce is due for a refresh and [getNonce] rejects, or when the
    [beforeTransaction] hook rejects: nothing is sent, [onSubmissionError]
    receives that error and is the only callback, and the time of the last
    submission is unchanged. *)
Theorem execute_cancelled heap tx env x clock :
  let f := frameOf (execute heap tx env x clock) in
  (refreshDue x clock = true ->
   forall d e, getNonce env = Rejects d e ->
     sent f = [] /\ fired f = [OnSubmissionError e] /\ self f = x)
  /\ (beforeTransaction x = true ->
      forall d e, before env = Rejects d e ->
        (refreshDue x clock = false \/ exists dn n, getNonce env = Resolves dn n) ->
        sent f = [] /\ fired f = [OnSubmissionError e]
        /\ lastTransactionTimestamp (self f) = lastTransactionTimestamp x).
Proof.
  unfold refreshDue. unfold_execute. split.
  - intros Hdue d e Hget. rewrite Hdue. simpl. rewrite Hget. simpl.
    repeat split.
  - intros Hhook d e Hbefore Hnonce.
    destruct (isNone (nonce x)
              || (NONCE_STALE_AFTER_MS <? clock - lastTransactionTimestamp x));
      simpl.
    + destruct Hnonce as [Hf|(dn & n & Hget)]; [discriminate|].
      rewrite Hget. simpl. destruct n as [n|]; simpl;
        rewrite Hhook, Hbefore; simpl; repeat split.
    + rewrite Hhook, Hbefore. simpl. repeat split.
Qed.

(** X17. Once the contract method has been called, the run ends within
    [TX_SUBMIT_TIMEOUT] milliseconds, whatever the method does; a run hangs
    only on [getNonce] or on the hook, before anything is sent. *)
Theorem execute_ends_in_time heap tx env x clock :
  let r := execute heap tx env x clock in
  (forall called, time_called (frameOf r) = Some called ->
     called <= now (frameOf r) <= called + TX_SUBMIT_TIMEOUT
     /\ sent (frameOf r) <> []
     /\ exists f, r = Done f tt)
  /\ (forall f, r = Hung f ->
        sent f = []
        /\ (refreshDue x clock = true /\ getNonce env = Never
            \/ beforeTransaction x = true /\ before env = Never)).
Proof.
  unfold refreshDue. unfold_execute.
  split_cases env x clock; split;
    try (intros called H; discriminate H);
    try (intros f H; discriminate H);
    try (intros f H; injection H as <-; simpl; split; [reflexivity|tauto]);
    intros called [= <-]; unfold TX_SUBMIT_TIMEOUT in *;
    (split; [|split; [discriminate | eauto]]);
    try (apply Z.ltb_lt in Hintime); lia.
Qed.

(** One run that goes through, with a known nonce that is not stale. *)
Lemma execute_goes_through heap tx env x clock n :
  nonce x = Some n ->
  clock - lastTransactionTimestamp x <= NONCE_STALE_AFTER_MS ->
  submitsInTime env = true ->
  (beforeTransaction x = true -> exists d, before env = Resolves d tt) ->
  exists f,
    execute heap tx env x clock = Done f tt
    /\ List.map carriedNonce (sent f) = [Some (VInt n)]
    /\ nonce (self f) = Some (n + 1)
    /\ lastTransactionTimestamp (self f) = now f
    /\ beforeTransaction (self f) = beforeTransaction x.
Proof.
  intros Hn Hfresh Hs Hhook. unfold submitsInTime in Hs.
  unfold_execute. rewrite Hn. simpl.
  assert (E : (NONCE_STALE_AFTER_MS <? clock - lastTransactionTimestamp x) = false)
    by (apply Z.ltb_ge; exact Hfresh).
  rewrite E. simpl.
  destruct (submit env) as [ds r|ds es|] eqn:Hsubmit; try discriminate.
  destruct (beforeTransaction x) eqn:Hb.
  - destruct (Hhook eq_refl) as [d Hd]. rewrite Hd. simpl. rewrite Hn. simpl.
    rewrite Hs. simpl. rewrite Hn. simpl.
    eexists. split; [reflexivity|]. simpl.
    rewrite carriedNonce_withNonce. repeat split. exact Hb.
  - simpl. rewrite Hn. simpl. rewrite Hs. simpl. rewrite Hn. simpl.
    eexists. split; [reflexivity|]. simpl.
    rewrite carriedNonce_withNonce. repeat split. exact Hb.
Qed.

(** X18. Starting from a known nonce [n], consecutive runs that all go
    through (each starting at most [NONCE_STALE_AFTER_MS] after the last
    submission) carry the nonces [n], [n + 1], [n + 2], ... in that order,
    one request per run. *)
Theorem nonces_in_sequence heap runs x clock n :
  nonce x = Some n ->
  clock <= lastTransactionTimestamp x ->
  Forall (goesThrough (beforeTransaction x)) runs ->
  List.map (fun f => List.map carriedNonce (sent f)) (executeAll heap runs x clock)
  = List.map (fun i => [Some (VInt (n + Z.of_nat i))]) (seq 0 (length runs)).
Proof.
  intros Hn Hclock Hall. revert x clock n Hn Hclock Hall.
  induction runs as [|[[tx env] gap] runs IH]; intros x clock n Hn Hclock Hall;
    [reflexivity|].
  inversion Hall as [|? ? Hgo Hrest]; subst.
  unfold goesThrough in Hgo. destruct Hgo as (Hgap & Hs & Hhook).
  destruct (execute_goes_through heap tx env x (clock + Z.of_nat gap) n)
    as (f & He & Hsent & Hn' & Hlast & Hb); try assumption; [lia|].
  cbn [executeAll]. rewrite He. cbn [frameOf List.map length seq].
  rewrite Hsent, Z.add_0_r. f_equal.
  rewrite (IH (self f) (now f) (n + 1)); try assumption; [|lia|].
  - rewrite <- seq_shift, map_map. apply map_ext. intros i.
    replace (n + 1 + Z.of_nat i) with (n + Z.of_nat (S i)) by lia.
    reflexivity.
  - rewrite Hb. exact Hrest.
Qed.

End ExecutorMore.

Section ResultFacts.
Import TxExecutor.

Ltac settle_cases :=
  unfold getResult; simpl;
  repeat split; intros; simpl in *;
  repeat match goal with
         | H : False |- _ => destruct H
         | H : _ \/ _ |- _ => destruct H
         | H : exists _, _ |- _ => destruct H
         | H : _ = _ |- _ => discriminate H
         | H : _ = _ |- _ => injection H as H; subst
         end;
  try reflexivity; eauto 8.


End ResultFacts.

Lemma request_composition_witness :
  let c := EthConnection.mkContract "0xc" (Network.makeProvider "http://rpc") None in
  let tx := TxExecutor.mkTx "a1" c "move" [] 0%nat in
  let o : gmap string TxExecutor.Value :=
    {[ "gasPrice"%string := TxExecutor.VBigNumber 3000000000;
       "nonce"%string := TxExecutor.VInt 7 ]} in
  let heap : gmap TxExecutor.Ref (gmap string TxExecutor.Value) := {[ 0%nat := o ]} in
  let x := TxExecutor.set_nonce (Some 42) (TxExecutor.new 1000 false) in
  let env := TxExecutor.mkEnv TxExecutor.Never TxExecutor.Never
               (TxExecutor.Resolves 30 (TxExecutor.mkResponse "0xh"))
               TxExecutor.Never in
  let request :=
    TxExecutor.withNonce (TxExecutor.requestWithDefaults heap tx) (Some 42) in
  heap !! TxExecutor.overrides tx = Some o
  /\ In request (TxExecutor.sent (TxExecutor.frameOf
                   (TxExecutor.execute heap tx env x 2000)))
  /\ (TxExecutor.refreshDue x 2000 = false ->
      request !! "nonce"%string
      = Some (TxExecutor.nonceValue (TxExecutor.nonce x)))
  /\ (TxExecutor.refreshDue x 2000 = true ->
      forall d a, TxExecutor.getNonce env = TxExecutor.Resolves d a ->
        request !! "nonce"%string
        = Some (match a with
                | Some n => TxExecutor.VInt n
                | None => TxExecutor.nonceValue (TxExecutor.nonce x)
                end))
  /\ request !! "gasLimit"%string
     = Some (default (TxExecutor.VInt 2000000) (o !! "gasLimit"%string))
  /\ forall k, k <> "nonce"%string -> k <> "gasLimit"%string ->
               request !! k = o !! k.
Proof.
  intros c tx o heap x env request.
  assert (H1 : heap !! TxExecutor.overrides tx = Some o)
    by apply lookup_singleton_eq.
  assert (H2 : In request (TxExecutor.sent (TxExecutor.frameOf
                             (TxExecutor.execute heap tx env x 2000))))
    by (left; reflexivity).
  split; [exact H1|]. split; [exact H2|].
  exact (request_composition heap tx env x 2000 request o H1 H2).
Defined.

Lemma nonces_in_sequence_witness :
  let c := EthConnection.mkContract "0xc" (Network.makeProvider "http://rpc") None in
  let tx := TxExecutor.mkTx "a1" c "move" [] 0%nat in
  let x := TxExecutor.set_nonce (Some 42) (TxExecutor.new 1000 false) in
  let env := TxExecutor.mkEnv TxExecutor.Never TxExecutor.Never
               (TxExecutor.Resolves 30 (TxExecutor.mkResponse "0xh"))
               TxExecutor.Never in
  let runs := [(tx, env, 10%nat); (tx, env, 20%nat); (tx, env, 0%nat)] in
  TxExecutor.nonce x = Some 42
  /\ 1000 <= TxExecutor.lastTransactionTimestamp x
  /\ Forall (goesThrough (TxExecutor.beforeTransaction x)) runs
  /\ List.map (fun f => List.map TxExecutor.carriedNonce (TxExecutor.sent f))
       (executeAll ∅ runs x 1000)
     = List.map (fun i => [Some (TxExecutor.VInt (42 + Z.of_nat i))])
         (seq 0 (length runs)).
Proof.
  intros c tx x env runs.
  assert (H1 : TxExecutor.nonce x = Some 42) by reflexivity.
  assert (H2 : 1000 <= TxExecutor.lastTransactionTimestamp x) by (simpl; lia).
  assert (H3 : Forall (goesThrough (TxExecutor.beforeTransaction x)) runs).
  { repeat constructor; try discriminate;
      unfold TxExecutor.NONCE_STALE_AFTER_MS; lia. }
  split; [exact H1|]. split; [exact H2|]. split; [exact H3|].
  exact (nonces_in_sequence ∅ runs x 1000 42 H1 H2 H3).
Defined.

(** ** The oracle client: order of the cleaned prices *)
Section OracleMore.
Import xDaiApi.
Variable MAX : Q.
Variable DEFAULT : GasPrices.

Ltac compare_all :=
  repeat match goal with
         | |- context [Qle_bool ?a ?b] =>
             let E := fresh "E" in
             destruct (Qle_bool a b) eqn:E;
             [apply Qle_bool_iff in E | apply Qle_bool_false in E]; simpl
         end.

Lemma clamp_monotone x y :
  real_leb x y = true ->
  number_leb (clamp MAX (Rl x)) (clamp MAX (Rl y)) = true.
Proof.
  unfold clamp, Math_max, Math_min, num.
  destruct x as [|p|], y as [|q|]; simpl; try discriminate; intros H;
    try (apply Qle_bool_iff in H);
    compare_all; try reflexivity;
    try (apply Qle_bool_iff); try lra.
Qed.

(** X20. Cleaning keeps the order of the oracle's numbers: if the body is
    an object whose [slow], [average] and [fast] are numbers with
    [slow <= average <= fast], the cleaned prices are in the same order. *)
Theorem cleanGasPrices_keeps_order (props : gmap string Json) (s a f : Real) :
  props !! "slow"%string = Some (JNumber s) ->
  props !! "average"%string = Some (JNumber a) ->
  props !! "fast"%string = Some (JNumber f) ->
  real_leb s a = true -> real_leb a f = true ->
  exists prices,
    getAutoGasPrices MAX DEFAULT (Body (PObject props)) = inr prices
    /\ number_leb (slow prices) (average prices) = true
    /\ number_leb (average prices) (fast prices) = true.
Proof.
  intros Hs Ha Hf Hsa Haf. unfold getAutoGasPrices, cleanGasPrices, numberOr.
  rewrite Hs, Ha, Hf. eexists. split; [reflexivity|]. simpl.
  split; apply clamp_monotone; assumption.
Qed.

End OracleMore.

Lemma cleanGasPrices_keeps_order_witness :
  let props : gmap string xDaiApi.Json :=
    <["slow"%string := xDaiApi.JNumber (Rat 0.5)]>
      (<["average"%string := xDaiApi.JNumber (Rat 7)]>
         (<["fast"%string := xDaiApi.JNumber PosInf]> ∅)) in
  let DEFAULT := mkGasPrices (num 1) (num 3) (num 10) in
  props !! "slow"%string = Some (xDaiApi.JNumber (Rat 0.5))
  /\ props !! "average"%string = Some (xDaiApi.JNumber (Rat 7))
  /\ props !! "fast"%string = Some (xDaiApi.JNumber PosInf)
  /\ real_leb (Rat 0.5) (Rat 7) = true
  /\ real_leb (Rat 7) PosInf = true
  /\ exists prices,
      xDaiApi.getAutoGasPrices 100 DEFAULT (xDaiApi.Body (xDaiApi.PObject props))
      = inr prices
      /\ number_leb (slow prices) (average prices) = true
      /\ number_leb (average prices) (fast prices) = true.
Proof.
  intros props DEFAULT.
  assert (H1 : props !! "slow"%string = Some (xDaiApi.JNumber (Rat 0.5)))
    by (vm_compute; reflexivity).
  assert (H2 : props !! "average"%string = Some (xDaiApi.JNumber (Rat 7)))
    by (vm_compute; reflexivity).
  assert (H3 : props !! "fast"%string = Some (xDaiApi.JNumber PosInf))
    by (vm_compute; reflexivity).
  assert (H4 : real_leb (Rat 0.5) (Rat 7) = true) by reflexivity.
  assert (H5 : real_leb (Rat 7) PosInf = true) by reflexivity.
  repeat (split; [assumption|]).
  exact (cleanGasPrices_keeps_order 100 DEFAULT props (Rat 0.5) (Rat 7) PosInf
           H1 H2 H3 H4 H5).
Defined.

(** ** The contract caller: attempts and diagnostics *)
Section CallerMore.
Import ContractCaller.
Context {A : Type}.
Variable contractViewFunction : nat -> Rejection + A.

Lemma attempt_spec n c :
  let r := attempt contractViewFunction n c in
  fst r = contractViewFunction n
  /\ invoked (snd r) = invoked c ++ [n]
  /\ maxRetries (snd r) = maxRetries c
  /\ queue (snd r) = queue c
  /\ diagnostics (snd r)
     = option_map
         (fun d => mkDiagnostics (S (totalCalls d))
                     (ThrottledConcurrentQueue.size
                        (ThrottledConcurrentQueue.queue (queue c))))
         (diagnostics c).
Proof.
  unfold attempt, recordCallsInQueue, updateDiagnostics, bumpTotalCalls.
  destruct (contractViewFunction n); simpl;
    destruct (diagnostics c); simpl; repeat split.
Qed.

Lemma pRetry_spec retries n errors c :
  let r := pRetry retries n errors (attempt contractViewFunction) c in
  exists k, (1 <= k <= S retries)%nat
    /\ invoked (snd r) = invoked c ++ seq n k
    /\ (forall v, fst r = inr v ->
                  contractViewFunction (n + k - 1)%nat = inr v)
    /\ (forall i, (n <= i < n + k - 1)%nat ->
                  exists e, contractViewFunction i = inl (AnError e))
    /\ queue (snd r) = queue c
    /\ diagnostics (snd r)
       = option_map
           (fun d => mkDiagnostics (totalCalls d + k)%nat
                       (ThrottledConcurrentQueue.size
                          (ThrottledConcurrentQueue.queue (queue c))))
           (diagnostics c).
Proof.
  assert (Hone : forall (c : t) d0,
             option_map
               (fun d => mkDiagnostics (S (totalCalls d)) d0) (diagnostics c)
             = option_map
                 (fun d => mkDiagnostics (totalCalls d + 1)%nat d0)
                 (diagnostics c)).
  { intros c0 d0. destruct (diagnostics c0); simpl; [|reflexivity].
    replace (totalCalls d + 1)%nat with (S (totalCalls d)) by lia.
    reflexivity. }
  revert n errors c. induction retries as [|r IH]; intros n errors c; simpl;
    pose proof (attempt_spec n c) as (Hf & Hi & _ & Hq & Hd);
    destruct (attempt contractViewFunction n c) as [[[e|e|e|e]|v] c1] eqn:Ha;
    simpl in *;
    try (exists 1%nat; replace (n + 1 - 1)%nat with n by lia;
         split; [lia|]; split; [exact Hi|];
         split; [intros v0 Hv0; congruence|];
         split; [intros i Hi0; lia|];
         split; [exact Hq|]; rewrite Hd; apply Hone).
  destruct (IH (S n) (errors ++ [e]) c1)
    as (k & Hk & Hi' & Hf' & Hall & Hq' & Hd').
  exists (S k). replace (n + S k - 1)%nat with (S n + k - 1)%nat by lia.
  split; [lia|]. split; [rewrite Hi', Hi, <- app_assoc; reflexivity|].
  split; [exact Hf'|]. split.
  { intros i Hi0. destruct (Nat.eq_dec i n) as [->|Hne];
      [exists e; congruence | apply Hall; lia]. }
  split; [congruence|].
  rewrite Hd', Hd, Hq. destruct (diagnostics c); simpl; [|reflexivity].
  f_equal. f_equal. lia.
Qed.

(** X21. [makeCall] calls the view function [k] times, with the attempt
    numbers 1 to [k] and [1 <= k <= maxRetries + 1]; every attempt before
    the last one failed, with an error that is retried, and a value it
    resolves with is the value of the last attempt.  With a diagnostics
    updater, [totalCalls] grows by [k + 1]: once for every attempt and once
    more for the call itself. *)
Theorem makeCall_attempts (c : t) :
  let r := makeCall contractViewFunction c in
  exists k, (1 <= k <= maxRetries c + 1)%nat
    /\ invoked (snd r) = invoked c ++ seq 1 k
    /\ (forall i, (1 <= i < k)%nat ->
                  exists e, contractViewFunction i = inl (AnError e))
    /\ (forall v, fst r = inr v -> contractViewFunction k = inr v)
    /\ (forall d, diagnostics c = Some d ->
          exists d', diagnostics (snd r) = Some d'
                     /\ totalCalls d' = (totalCalls d + k + 1)%nat).
Proof.
  unfold makeCall.
  destruct (pRetry_spec (maxRetries c) 1 [] c)
    as (k & Hk & Hi & Hf & Hall & _ & Hd).
  destruct (pRetry (maxRetries c) 1 [] (attempt contractViewFunction) c)
    as [res c1].
  cbn [fst snd] in *. exists k.
  replace (1 + k - 1)%nat with k in * by lia.
  split; [lia|]. split; [exact Hi|].
  split; [intros i Hi0; apply Hall; lia|].
  split; [exact Hf|].
  intros d Hdiag. unfold updateDiagnostics, bumpTotalCalls. cbn [diagnostics].
  rewrite Hd, Hdiag. simpl. eexists. split; [reflexivity|].
  simpl. lia.
Qed.

End CallerMore.

(** ** queueTransaction without overrides *)
Section DefaultOverrides.
Import TxExecutor.
Variable gweiToWei : Number -> Err + Z.


End DefaultOverrides.

(** ** Waiting for a transaction *)
Section WaitMore.
Import WaitForTransaction.
Variable getTransactionReceipt : nat -> Answer.

Local Abbreviation receiptInTime :=
  (WaitForTransaction.receiptInTime getTransactionReceipt).
Local Abbreviation givesUpAt :=
  (WaitForTransaction.givesUpAt getTransactionReceipt).

Lemma wait_attempt_spec n l :
  let r := attempt getTransactionReceipt n l in
  tried (snd r) = tried l ++ [n]
  /\ awaited l <= awaited (snd r) <= awaited l + 30000
  /\ match fst r with
     | inr receipt => receiptInTime n = Some receipt
     | inl (AnError _) => receiptInTime n = None /\ givesUpAt n = false
     | inl _ => receiptInTime n = None /\ givesUpAt n = true
     end.
Proof.
  unfold attempt, WaitForTransaction.receiptInTime,
    WaitForTransaction.givesUpAt, pTimeout, spend.
  change (30 * 1000) with 30000.
  destruct (getTransactionReceipt n) as [d [receipt|]|d [e|e|e|e]|];
    try (destruct (Z.of_nat d <? 30000) eqn:Hd;
         [apply Z.ltb_lt in Hd|]);
    cbn [fst snd tried awaited TimeoutError NoReceipt];
    (split; [reflexivity|]); (split; [lia|]);
    try reflexivity; split; reflexivity.
Qed.

Lemma wait_retry_spec retries n errors l :
  let r := pRetry retries n errors (attempt getTransactionReceipt) l in
  exists k, (1 <= k <= S retries)%nat
    /\ tried (snd r) = tried l ++ seq n k
    /\ awaited l <= awaited (snd r) <= awaited l + 30000 * Z.of_nat k
    /\ (forall i, (n <= i < n + k - 1)%nat ->
                  receiptInTime i = None /\ givesUpAt i = false)
    /\ match fst r with
       | inr receipt => receiptInTime (n + k - 1) = Some receipt
       | inl _ =>
           receiptInTime (n + k - 1) = None
           /\ (k = S retries \/ givesUpAt (n + k - 1) = true)
       end.
Proof.
  revert n errors l. induction retries as [|r IH]; intros n errors l; simpl;
    pose proof (wait_attempt_spec n l) as (Ht & Ha & Hf);
    destruct (attempt getTransactionReceipt n l) as [[[e|e|e|e]|v] l1] eqn:Hat;
    cbn [fst snd] in *;
    try (exists 1%nat; replace (n + 1 - 1)%nat with n by lia;
         split; [lia|]; split; [exact Ht|]; split; [lia|];
         split; [intros i Hi; lia|];
         first [ exact Hf
               | destruct Hf as [Hf1 Hf2]; split; [exact Hf1|]; auto ]).
  destruct (IH (S n) (errors ++ [e]) l1) as (k & Hk & Ht' & Ha' & Hall & Hlast).
  exists (S k).
  replace (n + S k - 1)%nat with (S n + k - 1)%nat by lia.
  split; [lia|]. split.
  { rewrite Ht', Ht, <- app_assoc. reflexivity. }
  split; [lia|]. split.
  { intros i Hi. destruct (Nat.eq_dec i n) as [->|Hne]; [exact Hf|].
    apply Hall. lia. }
  destruct (fst (pRetry r (S n) (errors ++ [e])
                   (attempt getTransactionReceipt) l1));
    [|exact Hlast].
  destruct Hlast as [Hnone [Hk'|Hg]]; (split; [exact Hnone|]);
    [left; lia | right; exact Hg].
Qed.

(** X23. [waitForTransaction] asks the provider [k] times, with the tries
    1 to [k] and [k <= 13], and spends at most 30 seconds awaiting each
    answer, also when the provider never answers.  Every attempt before
    the last got no receipt in time: a [null] receipt, a timeout and a
    rejection with an error that is retried lead to the next attempt.  The
    wait resolves exactly when the last attempt gets a non-null receipt
    before the timer, with that receipt; it rejects after 13 attempts
    without one, or at once when the provider rejects with a value that
    p-retry does not retry. *)
Theorem waitForTransaction_first_receipt :
  let r := waitForTransaction getTransactionReceipt (mkLog [] 0) in
  exists k, (1 <= k <= 13)%nat
    /\ tried (snd r) = seq 1 k
    /\ 0 <= awaited (snd r) <= 30000 * Z.of_nat k
    /\ (forall i, (1 <= i < k)%nat ->
                  receiptInTime i = None /\ givesUpAt i = false)
    /\ (forall receipt, fst r = inr receipt <->
                        receiptInTime k = Some receipt)
    /\ (forall e, fst r = inl e ->
                  receiptInTime k = None
                  /\ (k = 13%nat \/ givesUpAt k = true)).
Proof.
  unfold waitForTransaction.
  destruct (wait_retry_spec Network.DEFAULT_MAX_CALL_RETRIES 1 [] (mkLog [] 0))
    as (k & Hk & Ht & Ha & Hall & Hlast).
  destruct (pRetry Network.DEFAULT_MAX_CALL_RETRIES 1 []
              (attempt getTransactionReceipt) (mkLog [] 0)) as [res l1].
  cbn [fst snd tried awaited app] in *.
  replace (1 + k - 1)%nat with k in * by lia.
  exists k. unfold Network.DEFAULT_MAX_CALL_RETRIES in Hk, Hlast.
  split; [lia|]. split; [exact Ht|]. split; [lia|].
  split; [intros i Hi; apply Hall; lia|].
  destruct res as [e|v].
  - destruct Hlast as [Hnone Hwhy]. split.
    + intros receipt. split; [discriminate|]. rewrite Hnone. discriminate.
    + intros e' _. split; [exact Hnone | exact Hwhy].
  - split.
    + intros receipt. rewrite Hlast. split; congruence.
    + intros e; discriminate.
Qed.

End WaitMore.

(** The provider has no receipt yet, then does not answer, then gives the
    receipt: three tries, the second of which takes the 30 seconds of the
    timer.  A provider that rejects with a [TypeError] ends the wait at
    that try. *)
Example waitForTransaction_scenarios :
  let receipt := TxExecutor.mkReceipt 1 in
  let r1 := WaitForTransaction.waitForTransaction
              (fun n => match n with
                        | 1%nat => WaitForTransaction.Answers 40 None
                        | 2%nat => WaitForTransaction.Silent
                        | _ => WaitForTransaction.Answers 25 (Some receipt)
                        end)
              (WaitForTransaction.mkLog [] 0) in
  let r2 := WaitForTransaction.waitForTransaction
              (fun n => match n with
                        | 1%nat => WaitForTransaction.Answers 40 None
                        | _ => WaitForTransaction.Fails 5
                                 (ATypeError "provider is undefined")
                        end)
              (WaitForTransaction.mkLog [] 0) in
  r1 = (inr receipt, WaitForTransaction.mkLog [1%nat; 2%nat; 3%nat] 30065)
  /\ r2 = (inl "provider is undefined"%string,
           WaitForTransaction.mkLog [1%nat; 2%nat] 45).
Proof. split; reflexivity. Qed.
